(** * Token-bucket rate limiter: a shallow embedding and its properties

    The development follows the TypeScript sources:
    - [tokenBucket.ts]  : the in-memory bucket ([Module TokenBucket], and
                          [Module TokenBucket64] on doubles);
    - [redisBucket.ts]  : the Lua script and its wrapper ([Module RedisTokenBucket]);
    - [manager.ts]      : the keyed registry ([Module TokenBucketManager]);
    - [express.ts]      : the middleware ([Module Express]).

    Modelling conventions.
    - A JavaScript (or Lua) [number] is a binary64 double.
      [Module TokenBucket64] keeps the doubles of the in-memory bucket as
      they are, and is where the waiting time is computed to the
      millisecond. Everywhere else a number is read as an exact rational of
      type [Q]: what is proved there is about finite numbers, with neither
      NaN nor [Infinity], and about arithmetic that neither rounds nor
      overflows. The one operation that leaves the rationals all the same,
      the division by [refillRate] in [timeToRefill], keeps its IEEE result
      in [JsNumber].
    - A time source [() => number] may answer differently at each call: it is
      a function from the number of calls already made to the reading.
    - A callback supplied by the caller either returns or throws.
    - A thrown exception is a value of [Exn]; every operation returns the
      state it leaves behind together with its result.
    - A promise is modelled by the value it settles with: the [*Async]
      wrappers add nothing to the functions they wrap, the script runs in the
      store as one step, and [acquire], whose loop need not end, is cut after
      a given number of passes. *)

From Stdlib Require Import QArith Qround Qminmax Qabs ZArith Lia Lqa String List.
From Stdlib Require Import Floats Uint63.
From stdpp Require Import gmap strings.
Import ListNotations.

Local Open Scope Q_scope.

(** ** Numbers *)

(** [a >= b] and [a > b] on numbers, as booleans. *)
Definition Qgeb (a b : Q) : bool := Qle_bool b a.
Definition Qgtb (a b : Q) : bool := negb (Qle_bool a b).

(** [Math.min]. *)
Definition Math_min (a b : Q) : Q := Qmin a b.

(** [Number(x.toFixed(4))]: the decimal with four digits nearest to [x],
    ties away from zero. *)
Definition toFixed4 (x : Q) : Q :=
  let n := Qfloor (Qabs x * 10000 + (1 # 2)) in
  if Qgtb 0 x then inject_Z (- n) / 10000 else inject_Z n / 10000.

(** The values a division can produce. *)
Inductive JsNumber : Type :=
  | Finite (q : Q)
  | PosInfinity
  | NegInfinity
  | NaN.

(** [a / b] under IEEE rules for a zero divisor. *)
Definition js_div (a b : Q) : JsNumber :=
  if Qeq_bool b 0 then
    if Qgtb a 0 then PosInfinity
    else if Qgtb 0 a then NegInfinity
    else NaN
  else Finite (a / b).

Definition js_mul (a : JsNumber) (k : Q) : JsNumber :=
  match a with
  | Finite q => Finite (q * k)
  | PosInfinity => if Qgtb k 0 then PosInfinity else if Qgtb 0 k then NegInfinity else NaN
  | NegInfinity => if Qgtb k 0 then NegInfinity else if Qgtb 0 k then PosInfinity else NaN
  | NaN => NaN
  end.

(** [Math.ceil]. *)
Definition Math_ceil (a : JsNumber) : JsNumber :=
  match a with
  | Finite q => Finite (inject_Z (Qceiling q))
  | other => other
  end.

(** [a <= k] and [e + a > k] for a possibly infinite [a]. *)
Definition js_leb (a : JsNumber) (k : Q) : bool :=
  match a with
  | Finite q => Qle_bool q k
  | NegInfinity => true
  | PosInfinity | NaN => false
  end.

Definition js_add_gtb (e : Q) (a : JsNumber) (k : Q) : bool :=
  match a with
  | Finite q => Qgtb (e + q) k
  | PosInfinity => true
  | NegInfinity | NaN => false
  end.

(** ** Shared types ([types.ts]) *)

Record TokenBucketState : Type := mkState {
  st_tokens : Q;
  st_capacity : Q;
  st_refillRate : Q;
  st_lastRefill : Q;
}.

(** A time source: the reading returned by the [n]-th call. *)
Definition Clock : Type := nat -> Q.

(** What a caller-supplied callback does when it is invoked. *)
Inductive HookOutcome : Type :=
  | HookReturns
  | HookThrows (e : string).

(** The exceptions the sources can raise. *)
Inductive Exn : Type :=
  | InvalidOptions            (* 'capacity must be > 0 and refillRate must be >= 0' *)
  | CannotAcquire             (* 'Cannot acquire tokens: refillRate is 0 and bucket is empty' *)
  | TimeoutWaiting (cost : Q) (* `Timeout while waiting for ${cost} token(s)` *)
  | HookFailure (e : string)  (* whatever a callback threw *)
  | LuaError.                 (* arithmetic on nil inside the script *)

Inductive Result (A : Type) : Type :=
  | Ok (a : A)
  | Throw (e : Exn).
Arguments Ok {A} a.
Arguments Throw {A} e.

(** ** The in-memory bucket ([tokenBucket.ts]) *)

Module TokenBucket.

Definition Hook : Type := TokenBucketState -> HookOutcome.

Record Options : Type := mkOptions {
  opt_capacity : Q;
  opt_refillRate : Q;
  opt_currentTime : option Clock;
  opt_onRateLimit : option Hook;
}.

(** The private fields of the class. [ticks] counts the calls made to
    [getTime] so far. *)
Record t : Type := mk {
  capacity : Q;
  refillRate : Q;
  tokens : Q;
  lastRefillTimestamp : Q;
  getTime : Clock;
  ticks : nat;
  onRateLimit : option Hook;
  totalRequests : nat;
  allowedRequests : nat;
  limitedRequests : nat;
}.

Definition set_tokens (v : Q) (b : t) : t :=
  mk (capacity b) (refillRate b) v (lastRefillTimestamp b) (getTime b)
     (ticks b) (onRateLimit b) (totalRequests b) (allowedRequests b)
     (limitedRequests b).

Definition set_lastRefillTimestamp (v : Q) (b : t) : t :=
  mk (capacity b) (refillRate b) (tokens b) v (getTime b)
     (ticks b) (onRateLimit b) (totalRequests b) (allowedRequests b)
     (limitedRequests b).

Definition incr_totalRequests (b : t) : t :=
  mk (capacity b) (refillRate b) (tokens b) (lastRefillTimestamp b) (getTime b)
     (ticks b) (onRateLimit b) (S (totalRequests b)) (allowedRequests b)
     (limitedRequests b).

Definition incr_allowedRequests (b : t) : t :=
  mk (capacity b) (refillRate b) (tokens b) (lastRefillTimestamp b) (getTime b)
     (ticks b) (onRateLimit b) (totalRequests b) (S (allowedRequests b))
     (limitedRequests b).

Definition incr_limitedRequests (b : t) : t :=
  mk (capacity b) (refillRate b) (tokens b) (lastRefillTimestamp b) (getTime b)
     (ticks b) (onRateLimit b) (totalRequests b) (allowedRequests b)
     (S (limitedRequests b)).

(** [this.getTime()]: the next reading of the bucket's time source. *)
Definition readTime (b : t) : Q * t :=
  (getTime b (ticks b),
   mk (capacity b) (refillRate b) (tokens b) (lastRefillTimestamp b) (getTime b)
      (S (ticks b)) (onRateLimit b) (totalRequests b) (allowedRequests b)
      (limitedRequests b)).

(** [new TokenBucket(options)]. [DateNow] is the wall clock [Date.now]:
    the constructor reads it once for [lastRefillTimestamp], and it is the
    time source when [currentTime] is not given. *)
Definition constructor (DateNow : Clock) (options : Options) : Result t :=
  if Qle_bool (opt_capacity options) 0 || Qgtb 0 (opt_refillRate options)
  then Throw InvalidOptions
  else Ok (mk (opt_capacity options)
              (opt_refillRate options)
              (opt_capacity options)
              (DateNow O)
              (match opt_currentTime options with
               | Some c => c
               | None => fun n => DateNow (S n)
               end)
              O
              (opt_onRateLimit options)
              O O O).

Definition refill (b : t) : t :=
  let '(now, b) := readTime b in
  let elapsedSeconds := (now - lastRefillTimestamp b) / 1000 in
  if Qgtb elapsedSeconds 0 then
    let newTokens := tokens b + elapsedSeconds * refillRate b in
    set_lastRefillTimestamp now (set_tokens (Math_min newTokens (capacity b)) b)
  else b.

Definition getState (b : t) : TokenBucketState * t :=
  let b := refill b in
  (mkState (toFixed4 (tokens b)) (capacity b) (refillRate b)
           (lastRefillTimestamp b), b).

Definition allow (cost : Q) (b : t) : Result bool * t :=
  let b := incr_totalRequests b in
  let b := refill b in
  if Qgeb (tokens b) cost then
    let b := set_tokens (tokens b - cost) b in
    let b := incr_allowedRequests b in
    (Ok true, b)
  else
    let b := incr_limitedRequests b in
    match onRateLimit b with
    | Some hook =>
        let '(s, b) := getState b in
        match hook s with
        | HookReturns => (Ok false, b)
        | HookThrows e => (Throw (HookFailure e), b)
        end
    | None => (Ok false, b)
    end.

Definition check (cost : Q) (b : t) : bool * t :=
  let b := refill b in
  (Qgeb (tokens b) cost, b).

Definition timeToRefill (cost : Q) (b : t) : JsNumber * t :=
  let b := refill b in
  if Qgeb (tokens b) cost then (Finite 0, b)
  else
    let needed := cost - tokens b in
    (Math_ceil (js_mul (js_div needed (refillRate b)) 1000), b).

Definition reset (b : t) : t :=
  let b := set_tokens (capacity b) b in
  let '(now, b) := readTime b in
  set_lastRefillTimestamp now b.

Definition getMetrics (b : t) : nat * nat * nat :=
  (totalRequests b, allowedRequests b, limitedRequests b).

End TokenBucket.

(** ** Blocking acquire ([TokenBucket.acquire]) *)

Module Acquire.
Import TokenBucket.

(** One pass through the body of [while (true)]. [Some r]: the promise is
    settled with [r]; [None]: the loop goes round again, after
    [await delay(wait)] unless the wait was not positive. No other caller
    touches the bucket while the promise sleeps. *)
Definition iteration (cost : Q) (timeoutMs : option Q) (start : Q) (b : t)
  : option (Result unit) * t :=
  match allow cost b with
  | (Throw e, b) => (Some (Throw e), b)
  | (Ok true, b) => (Some (Ok tt), b)
  | (Ok false, b) =>
      let '(wait, b) := timeToRefill cost b in
      if js_leb wait 0 then (None, b)
      else
        match timeoutMs with
        | Some timeout =>
            let '(now, b) := readTime b in
            let elapsed := now - start in
            if js_add_gtb elapsed wait timeout
            then (Some (Throw (TimeoutWaiting cost)), b)
            else (None, b)
        | None => (None, b)
        end
  end.

(** The loop, cut after [fuel] passes; [None] means that the promise is
    still pending then. *)
Fixpoint loop (fuel : nat) (cost : Q) (timeoutMs : option Q) (start : Q) (b : t)
  : option (Result unit) * t :=
  match fuel with
  | O => (None, b)
  | S fuel =>
      match iteration cost timeoutMs start b with
      | (Some r, b) => (Some r, b)
      | (None, b) => loop fuel cost timeoutMs start b
      end
  end.

Definition acquire (fuel : nat) (cost : Q) (timeoutMs : option Q) (b : t)
  : option (Result unit) * t :=
  let '(start, b) := readTime b in
  if Qle_bool (refillRate b) 0 then
    let '(enough, b) := check cost b in
    if negb enough then (Some (Throw CannotAcquire), b)
    else loop fuel cost timeoutMs start b
  else loop fuel cost timeoutMs start b.

(** The bucket after [n] passes that all asked to go round again. *)
Fixpoint retries (n : nat) (cost : Q) (timeoutMs : option Q) (start : Q) (b : t)
  : option t :=
  match n with
  | O => Some b
  | S n =>
      match iteration cost timeoutMs start b with
      | (None, b) => retries n cost timeoutMs start b
      | (Some _, _) => None
      end
  end.

(** The condition for a timeout in the words of the specification: after a
    failed [allow(cost)], a deadline is set and the time elapsed since entry
    plus the wait computed by [timeToRefill(cost)] exceeds it. *)
Definition spec_deadline_exceeded (cost : Q) (timeoutMs : option Q) (start : Q)
    (b : t) : bool :=
  match allow cost b with
  | (Ok false, b) =>
      let '(wait, b) := timeToRefill cost b in
      let '(now, _) := readTime b in
      match timeoutMs with
      | Some timeout => js_add_gtb (now - start) wait timeout
      | None => false
      end
  | _ => false
  end.

End Acquire.

(** ** The store-backed bucket ([redisBucket.ts]) *)

Module RedisTokenBucket.

(** The hash kept under a key, with the expiry [EXPIRE] last gave it. *)
Record Hash : Type := mkHash {
  h_tokens : option Q;
  h_lastRefill : option Q;
  h_expire : option Q;
}.

Abbreviation Store := (gmap string Hash).

Definition HMGET (key : string) (store : Store) : option Q * option Q :=
  match store !! key with
  | Some h => (h_tokens h, h_lastRefill h)
  | None => (None, None)
  end.

Definition HMSET (key : string) (tokens lastRefill : Q) (store : Store) : Store :=
  let expire := match store !! key with Some h => h_expire h | None => None end in
  <[key := mkHash (Some tokens) (Some lastRefill) expire]> store.

Definition EXPIRE (key : string) (ttlSeconds : Q) (store : Store) : Store :=
  match store !! key with
  | Some h => <[key := mkHash (h_tokens h) (h_lastRefill h) (Some ttlSeconds)]> store
  | None => store
  end.

Definition DEL (key : string) (store : Store) : Store := delete key store.

Record ScriptArgs : Type := mkArgs {
  a_capacity : Q;
  a_refillRate : Q;
  a_cost : Q;
  a_nowMs : Q;
  a_consume : bool;
  a_returnState : bool;
  a_ttlSeconds : Q;
}.

(** [{allowed, tokens}] or [{allowed, tokens, lastRefill}]. *)
Record Reply : Type := mkReply {
  r_allowed : Q;
  r_tokens : Q;
  r_lastRefill : option Q;
}.

(** The Lua script, run by the store as one indivisible step. *)
Definition REDIS_TOKEN_BUCKET_LUA (key : string) (args : ScriptArgs) (store : Store)
  : Result Reply * Store :=
  let capacity := a_capacity args in
  let refillRate := a_refillRate args in
  let cost := a_cost args in
  let nowMs := a_nowMs args in
  let data := HMGET key store in
  let '(tokens, lastRefill) :=
    match fst data with
    | None => (capacity, Some nowMs)
    | Some tokens => (tokens, snd data)
    end in
  match lastRefill with
  | None => (Throw LuaError, store)
  | Some lastRefill =>
      let elapsedMs := nowMs - lastRefill in
      let '(tokens, lastRefill) :=
        if Qgtb elapsedMs 0 then
          let refill := (elapsedMs / 1000) * refillRate in
          let tokens := tokens + refill in
          let tokens := if Qgtb tokens capacity then capacity else tokens in
          (tokens, nowMs)
        else (tokens, lastRefill) in
      let '(allowed, tokens) :=
        if Qgeb tokens cost
        then (1, if a_consume args then tokens - cost else tokens)
        else (0, tokens) in
      let store := HMSET key tokens lastRefill store in
      let store :=
        if Qgtb (a_ttlSeconds args) 0
        then EXPIRE key (a_ttlSeconds args) store
        else store in
      (Ok (mkReply allowed tokens
             (if a_returnState args then Some lastRefill else None)), store)
  end.

(** The refill of the script taken on its own, on the pair [(tk, last)]
    that it read or initialised. *)
Definition lua_refill (capacity refillRate nowMs tk last : Q) : Q * Q :=
  if Qgtb (nowMs - last) 0 then
    (let x := tk + (nowMs - last) / 1000 * refillRate in
     if Qgtb x capacity then capacity else x, nowMs)
  else (tk, last).

Definition Hook : Type := string -> TokenBucketState -> HookOutcome.

Record t : Type := mk {
  capacity : Q;
  refillRate : Q;
  getTime : Clock;
  ticks : nat;
  key : string;
  ttlSeconds : option Q;
  onRateLimit : option Hook;
  totalRequests : nat;
  allowedRequests : nat;
  limitedRequests : nat;
}.

Record Options : Type := mkOptions {
  opt_capacity : Q;
  opt_refillRate : Q;
  opt_currentTime : option Clock;
  opt_key : string;
  opt_prefix : option string;
  opt_ttlSeconds : option Q;
  opt_onRateLimit : option Hook;
}.

Definition constructor (DateNow : Clock) (options : Options) : Result t :=
  if Qle_bool (opt_capacity options) 0 || Qgtb 0 (opt_refillRate options)
  then Throw InvalidOptions
  else Ok (mk (opt_capacity options)
              (opt_refillRate options)
              (match opt_currentTime options with
               | Some c => c
               | None => DateNow
               end)
              O
              (String.append (default "tb"%string (opt_prefix options))
                 (String.append ":" (opt_key options)))
              (opt_ttlSeconds options)
              (opt_onRateLimit options)
              O O O).

Definition incr_totalRequests (b : t) : t :=
  mk (capacity b) (refillRate b) (getTime b) (ticks b) (key b) (ttlSeconds b)
     (onRateLimit b) (S (totalRequests b)) (allowedRequests b) (limitedRequests b).

Definition incr_allowedRequests (b : t) : t :=
  mk (capacity b) (refillRate b) (getTime b) (ticks b) (key b) (ttlSeconds b)
     (onRateLimit b) (totalRequests b) (S (allowedRequests b)) (limitedRequests b).

Definition incr_limitedRequests (b : t) : t :=
  mk (capacity b) (refillRate b) (getTime b) (ticks b) (key b) (ttlSeconds b)
     (onRateLimit b) (totalRequests b) (allowedRequests b) (S (limitedRequests b)).

Definition readTime (b : t) : Q * t :=
  (getTime b (ticks b),
   mk (capacity b) (refillRate b) (getTime b) (S (ticks b)) (key b) (ttlSeconds b)
      (onRateLimit b) (totalRequests b) (allowedRequests b) (limitedRequests b)).

(** What the store makes of a number in the table a script returns: an
    integer reply, the fraction dropped. *)
Definition integer_reply (x : Q) : Q :=
  inject_Z (Z.quot (Qnum x) (Zpos (Qden x))).

(** [EVAL] with the text of the script, or [EVALSHA] with its digest: the
    store runs the script as one step and replies with the table it returned,
    every number of it converted to an integer. *)
Definition to_reply (result : Result Reply) : Result Reply :=
  match result with
  | Ok table =>
      Ok (mkReply (integer_reply (r_allowed table))
            (integer_reply (r_tokens table))
            (option_map integer_reply (r_lastRefill table)))
  | Throw e => Throw e
  end.

Definition EVAL (key : string) (args : ScriptArgs) (store : Store)
  : Result Reply * Store :=
  let '(result, store) := REDIS_TOKEN_BUCKET_LUA key args store in
  (to_reply result, store).

(** [runScript(cost, {consume, returnState})]. *)
Definition runScript (cost : Q) (consume returnState : bool) (b : t) (store : Store)
  : Result Reply * t * Store :=
  let '(now, b) := readTime b in
  let ttlSeconds := default 0 (ttlSeconds b) in
  let '(result, store) :=
    EVAL (key b)
      (mkArgs (capacity b) (refillRate b) cost now consume returnState ttlSeconds)
      store in
  (result, b, store).

Definition allow (cost : Q) (b : t) (store : Store) : Result bool * t * Store :=
  let b := incr_totalRequests b in
  match runScript cost true (bool_decide (is_Some (onRateLimit b))) b store with
  | (Throw e, b, store) => (Throw e, b, store)
  | (Ok reply, b, store) =>
      if Qeq_bool (r_allowed reply) 1 then
        (Ok true, incr_allowedRequests b, store)
      else
        let b := incr_limitedRequests b in
        match onRateLimit b, r_lastRefill reply with
        | Some hook, Some lastRefill =>
            match hook (key b)
                    (mkState (toFixed4 (r_tokens reply)) (capacity b)
                       (refillRate b) lastRefill) with
            | HookReturns => (Ok false, b, store)
            | HookThrows e => (Throw (HookFailure e), b, store)
            end
        | _, _ => (Ok false, b, store)
        end
  end.

Definition check (cost : Q) (b : t) (store : Store) : Result bool * t * Store :=
  match runScript cost false false b store with
  | (Throw e, b, store) => (Throw e, b, store)
  | (Ok reply, b, store) => (Ok (Qeq_bool (r_allowed reply) 1), b, store)
  end.

Definition timeToRefill (cost : Q) (b : t) (store : Store)
  : Result JsNumber * t * Store :=
  match runScript 0 false false b store with
  | (Throw e, b, store) => (Throw e, b, store)
  | (Ok reply, b, store) =>
      if Qgeb (r_tokens reply) cost then (Ok (Finite 0), b, store)
      else
        let needed := cost - r_tokens reply in
        (Ok (Math_ceil (js_mul (js_div needed (refillRate b)) 1000)), b, store)
  end.

Definition reset (b : t) (store : Store) : Store := DEL (key b) store.

Definition getMetrics (b : t) : nat * nat * nat :=
  (totalRequests b, allowedRequests b, limitedRequests b).

(** The object [getState] returns: [lastRefill] is the third item of the
    reply, which the script leaves out unless asked for the state. *)
Record RemoteState : Type := mkRemoteState {
  rs_tokens : Q;
  rs_capacity : Q;
  rs_refillRate : Q;
  rs_lastRefill : option Q;
}.

Definition getState (b : t) (store : Store)
  : Result RemoteState * t * Store :=
  match runScript 0 false true b store with
  | (Throw e, b, store) => (Throw e, b, store)
  | (Ok reply, b, store) =>
      (Ok (mkRemoteState (toFixed4 (r_tokens reply)) (capacity b)
             (refillRate b) (r_lastRefill reply)), b, store)
  end.

End RedisTokenBucket.

(** ** The keyed registry ([manager.ts]) *)

Module TokenBucketManager.

(** Bucket objects live in the heap and are known by reference, so that an
    entry of the registry and the value handed out by [get] are one object.
    [nextRef] is the number of objects allocated so far. *)
Record Heap : Type := mkHeap {
  objects : gmap nat TokenBucket.t;
  nextRef : nat;
}.

#[global] Instance TokenBucket_inhabited : Inhabited TokenBucket.t :=
  populate (TokenBucket.mk 0 0 0 0 (fun _ => 0) O None O O O).

(** Dereference and update of a bucket object. *)
Definition deref (r : nat) (h : Heap) : TokenBucket.t := objects h !!! r.

Definition store (r : nat) (b : TokenBucket.t) (h : Heap) : Heap :=
  mkHeap (<[r := b]> (objects h)) (nextRef h).

Record Entry : Type := mkEntry {
  bucket : nat;
  lastAccess : Q;
}.

Definition Hook : Type := string -> TokenBucketState -> HookOutcome.

(** [createBucket] is the caller's factory: [createBucket n key] is the
    object built by its call number [n] (it may read the wall clock, as
    [new TokenBucket] does). The factory is taken to build a new object at
    every call, as [(key) => new TokenBucket(...)] does; one that hands out
    an object it has handed out before is not covered. *)
Record t : Type := mk {
  buckets : gmap string Entry;
  createBucket : nat -> string -> TokenBucket.t;
  ttlMs : option Q;
  onRateLimit : option Hook;
}.

Definition set_buckets (bs : gmap string Entry) (m : t) : t :=
  mk bs (createBucket m) (ttlMs m) (onRateLimit m).

Record Options : Type := mkOptions {
  opt_createBucket : nat -> string -> TokenBucket.t;
  opt_ttlMs : option Q;
  opt_onRateLimit : option Hook;
}.

(** The two overloads of the constructor. *)
Definition constructor (arg : (nat -> string -> TokenBucket.t) + Options) : t :=
  match arg with
  | inl f => mk ∅ f None None
  | inr o => mk ∅ (opt_createBucket o) (opt_ttlMs o) (opt_onRateLimit o)
  end.

(** [get(key)]; [now] is what [Date.now()] answers during the call. *)
Definition get (now : Q) (key : string) (m : t) (h : Heap) : nat * t * Heap :=
  let entry := buckets m !! key in
  let m :=
    match entry, ttlMs m with
    | Some entry, Some ttl =>
        if Qgtb (now - lastAccess entry) ttl
        then set_buckets (delete key (buckets m)) m
        else m
    | _, _ => m
    end in
  match buckets m !! key with
  | None =>
      let r := nextRef h in
      let h := mkHeap (<[r := createBucket m r key]> (objects h)) (S r) in
      (r, set_buckets (<[key := mkEntry r now]> (buckets m)) m, h)
  | Some current =>
      (bucket current,
       set_buckets (<[key := mkEntry (bucket current) now]> (buckets m)) m, h)
  end.

Definition allow (now : Q) (key : string) (cost : Q) (m : t) (h : Heap)
  : Result bool * t * Heap :=
  let '(r, m, h) := get now key m h in
  let '(res, b) := TokenBucket.allow cost (deref r h) in
  let h := store r b h in
  match res with
  | Throw e => (Throw e, m, h)
  | Ok allowed =>
      match negb allowed, onRateLimit m with
      | true, Some hook =>
          let '(s, b) := TokenBucket.getState (deref r h) in
          let h := store r b h in
          match hook key s with
          | HookReturns => (Ok allowed, m, h)
          | HookThrows e => (Throw (HookFailure e), m, h)
          end
      | _, _ => (Ok allowed, m, h)
      end
  end.

Definition check (now : Q) (key : string) (cost : Q) (m : t) (h : Heap)
  : bool * t * Heap :=
  let '(r, m, h) := get now key m h in
  let '(res, b) := TokenBucket.check cost (deref r h) in
  (res, m, store r b h).

Definition timeToRefill (now : Q) (key : string) (cost : Q) (m : t) (h : Heap)
  : JsNumber * t * Heap :=
  let '(r, m, h) := get now key m h in
  let '(res, b) := TokenBucket.timeToRefill cost (deref r h) in
  (res, m, store r b h).

Definition getState (now : Q) (key : string) (m : t) (h : Heap)
  : TokenBucketState * t * Heap :=
  let '(r, m, h) := get now key m h in
  let '(res, b) := TokenBucket.getState (deref r h) in
  (res, m, store r b h).

(** The body of the [for ... of] loop of [cleanup]. *)
Definition cleanup_step (now ttl : Q) (acc : gmap string Entry)
    (kv : string * Entry) : gmap string Entry :=
  if Qgtb (now - lastAccess (snd kv)) ttl then delete (fst kv) acc else acc.

Definition cleanup (now : Q) (m : t) : t :=
  match ttlMs m with
  | None => m
  | Some ttl =>
      set_buckets
        (foldl (cleanup_step now ttl) (buckets m) (map_to_list (buckets m))) m
  end.

(** Every reference held by the registry points to an allocated object. *)
Definition refs_allocated (m : t) (h : Heap) : Prop :=
  forall (k : string) (e : Entry),
    buckets m !! k = Some e -> (bucket e < nextRef h)%nat.

End TokenBucketManager.

(** ** Sequences of calls on one bucket *)

Module Calls.
Import TokenBucket.

Inductive Op : Type :=
  | Allow (cost : Q)
  | Check (cost : Q)
  | TimeToRefill (cost : Q)
  | GetState
  | Reset.

(** The bucket a call leaves behind; a caller that catches what a hook
    threw goes on with the same object. *)
Definition step (b : t) (o : Op) : t :=
  match o with
  | Allow cost => snd (allow cost b)
  | Check cost => snd (check cost b)
  | TimeToRefill cost => snd (timeToRefill cost b)
  | GetState => snd (getState b)
  | Reset => reset b
  end.

Definition run (ops : list Op) (b : t) : t := fold_left step ops b.

(** [0 <= tokens <= capacity]. *)
Definition in_range (b : t) : Prop :=
  0 <= tokens b /\ tokens b <= capacity b.

(** What the constructor guarantees about the two fixed parameters. *)
Definition configured (b : t) : Prop :=
  0 < capacity b /\ 0 <= refillRate b.


(** The invariant carried along a sequence of calls. *)
Definition healthy (b : t) : Prop := configured b /\ in_range b.

Definition metrics_consistent (b : t) : Prop :=
  totalRequests b = (allowedRequests b + limitedRequests b)%nat.

Definition same_metrics (b b' : t) : Prop :=
  getMetrics b' = getMetrics b.

End Calls.

(** ** Concrete clocks and buckets used in the scenarios *)

Module Scenario.

(** A time source that always answers [t]. *)
Definition fixed (t : Q) : Clock := fun _ => t.

(** A time source that answers [t0] once and [t1] from then on. *)
Definition advancing (t0 t1 : Q) : Clock :=
  fun n => match n with O => t0 | S _ => t1 end.

(** A time source that answers 0, then 500, then 1000 for ever. *)
Definition stepping : Clock :=
  fun n => match n with O => 0 | 1%nat => 500 | _ => 1000 end.

(** [capacity = 10], [refillRate = 5], injected clock [c], no hook. *)
Definition options_10_5 (c : Clock) : TokenBucket.Options :=
  TokenBucket.mkOptions 10 5 (Some c) None.

(** The bucket [new TokenBucket(options_10_5 c)] is when [Date.now()]
    answers [d]. *)
Definition bucket_10_5 (d : Q) (c : Clock) : TokenBucket.t :=
  TokenBucket.mk 10 5 10 d c O None O O O.



(** [capacity = 1], [refillRate = 1], no token left at [lastRefill = 0]. *)
Definition drained_1_1 (c : Clock) (hook : option TokenBucket.Hook)
  : TokenBucket.t :=
  TokenBucket.mk 1 1 0 0 c O hook O O O.

(** Three tokens left at [lastRefill = 0], clock standing at 1000. *)
Definition local_3_of_10 : TokenBucket.t :=
  TokenBucket.mk 10 5 3 0 (fixed 1000) O None O O O.

(** The store-backed counterpart, and a store that holds the same state. *)
Definition remote_10_5 : RedisTokenBucket.t :=
  RedisTokenBucket.mk 10 5 (fixed 1000) O "tb:u1" None None O O O.

Definition store_3_of_10 : gmap string RedisTokenBucket.Hash :=
  {[ "tb:u1"%string := RedisTokenBucket.mkHash (Some 3) (Some 0) None ]}.

(** The same state read a tenth of a second after [lastRefill]: 3.5 tokens
    after the refill. *)
Definition local_3_of_10_at_100 : TokenBucket.t :=
  TokenBucket.mk 10 5 3 0 (fixed 100) O None O O O.

Definition remote_10_5_at_100 : RedisTokenBucket.t :=
  RedisTokenBucket.mk 10 5 (fixed 100) O "tb:u1" None None O O O.

(** A hook that always throws. *)
Definition failing_hook : TokenBucket.Hook := fun _ => HookThrows "boom".
Definition failing_key_hook : TokenBucketManager.Hook :=
  fun _ _ => HookThrows "boom".

(** A registry whose buckets are drained and carry no hook of their own,
    with a registry-level hook that throws. *)
Definition manager_failing_hook : TokenBucketManager.t :=
  TokenBucketManager.constructor
    (inr (TokenBucketManager.mkOptions
            (fun _ _ => drained_1_1 (fixed 0) None) None
            (Some failing_key_hook))).

Definition empty_heap : TokenBucketManager.Heap :=
  TokenBucketManager.mkHeap ∅ O.

(** A registry with [ttlMs = 1000] whose factory builds full buckets of
    capacity 10 and rate 5 on a clock that stands at 0. *)
Definition manager_ttl_1000 : TokenBucketManager.t :=
  TokenBucketManager.constructor
    (inr (TokenBucketManager.mkOptions
            (fun _ _ => bucket_10_5 0 (fixed 0)) (Some 1000) None)).

End Scenario.

(** ** What a sequence of calls has been granted *)

Module Ledger.
Import TokenBucket.



Definition is_reset (o : Calls.Op) : bool :=
  match o with
  | Calls.Reset => true
  | _ => false
  end.


End Ledger.

(** ** Well-formed registries *)

Module Registry.
Import TokenBucketManager.

(** No two keys of the registry hold the same bucket object. *)
Definition refs_injective (m : t) : Prop :=
  forall (k1 k2 : string) (e1 e2 : Entry),
    buckets m !! k1 = Some e1 -> buckets m !! k2 = Some e2 ->
    bucket e1 = bucket e2 -> k1 = k2.

(** What holds of a registry whose buckets all came from its factory. *)
Definition well_formed (m : t) (h : Heap) : Prop :=
  refs_allocated m h /\ refs_injective m.

(** A registry that has resolved "a" and then "b", both at [t = 0], with
    full buckets of capacity 10 and a TTL of 1000 ms. *)
Definition registry_ab : t :=
  mk (<["b"%string := mkEntry 1%nat 0]> (<["a"%string := mkEntry 0%nat 0]> ∅))
     (fun _ _ => Scenario.bucket_10_5 0 (Scenario.fixed 0)) (Some 1000) None.

Definition heap_ab : Heap :=
  mkHeap (<[1%nat := Scenario.bucket_10_5 0 (Scenario.fixed 0)]>
            (<[0%nat := Scenario.bucket_10_5 0 (Scenario.fixed 0)]> ∅)) 2.

End Registry.

(** ** The Express middleware ([express.ts]) *)

Module Express.

(** [RequestLike]: of a request, the default key resolver reads [ip]. *)
Record Request : Type := mkRequest {
  ip : option string;
}.

(** [ResponseLike]: which of its methods the response object has. *)
Record Response : Type := mkResponse {
  has_status : bool;
  has_setHeader : bool;
  has_send : bool;
  has_end : bool;
}.

(** A header value: [x.toFixed(4)] or [x.toString()] of a number. *)
Inductive HeaderValue : Type :=
  | FixedFour (x : Q)
  | NumberString (x : Q).

(** What the middleware does to the response and to the chain, in order. *)
Inductive Effect : Type :=
  | Status (code : nat)                          (* res.status(code) *)
  | SetHeader (name : string) (value : HeaderValue)
  | Send (body : string)                         (* res.send(body) *)
  | EndResponse                                  (* res.end() *)
  | Next (err : option string)                   (* next() or next(new Error(..)) *)
  | OnReject (state : TokenBucketState).         (* onReject(req, res, next, state) *)

Record Options : Type := mkOptions {
  opt_cost : option Q;
  opt_keyResolver : option (Request -> string);
  opt_manager : option TokenBucketManager.t;
  opt_managerOptions : option (option Q * option TokenBucketManager.Hook);
  opt_createBucket : option (nat -> string -> TokenBucket.t);
  opt_onReject : bool;
  opt_setHeaders : option bool;
}.

(** [new TokenBucket({ capacity: 10, refillRate: 5 })] under the wall clock
    [DateNow]. *)
Definition defaultBucket (DateNow : Clock) : TokenBucket.t :=
  TokenBucket.mk 10 5 10 (DateNow O) (fun n => DateNow (S n)) O None O O O.

(** [req.ip || 'anonymous']: an absent or empty [ip] is falsy. *)
Definition defaultKeyResolver (req : Request) : string :=
  match ip req with
  | Some (String c s) => String c s
  | Some EmptyString | None => "anonymous"
  end.

(** What the destructuring of [options] leaves the middleware with. *)
Record Limiter : Type := mkLimiter {
  cost : Q;
  keyResolver : Request -> string;
  onReject : bool;
  setHeaders : bool;
}.

(** [createExpressRateLimiter(options)]: the middleware and the registry it
    works on. [DateNow n] is the wall clock as the [n]-th bucket built by the
    default factory sees it. *)
Definition createExpressRateLimiter (DateNow : nat -> Clock) (options : Options)
  : Limiter * TokenBucketManager.t :=
  (mkLimiter (default 1 (opt_cost options))
     (default defaultKeyResolver (opt_keyResolver options))
     (opt_onReject options)
     (default true (opt_setHeaders options)),
   match opt_manager options with
   | Some manager => manager
   | None =>
       TokenBucketManager.constructor
         (inr (TokenBucketManager.mkOptions
                 (default (fun n _ => defaultBucket (DateNow n))
                    (opt_createBucket options))
                 (match opt_managerOptions options with
                  | Some (ttlMs, _) => ttlMs
                  | None => None
                  end)
                 (match opt_managerOptions options with
                  | Some (_, onRateLimit) => onRateLimit
                  | None => None
                  end)))
   end).

(** The middleware [(req, res, next) => ...]; [now1] and [now2] are what
    [Date.now()] answers inside [manager.allow] and [manager.getState]. *)
Definition handle (l : Limiter) (now1 now2 : Q) (req : Request) (res : Response)
    (m : TokenBucketManager.t) (h : TokenBucketManager.Heap)
  : Result (list Effect) * TokenBucketManager.t * TokenBucketManager.Heap :=
  let key := keyResolver l req in
  match TokenBucketManager.allow now1 key (cost l) m h with
  | (Throw e, m, h) => (Throw e, m, h)
  | (Ok allowed, m, h) =>
      let '(state, m, h) := TokenBucketManager.getState now2 key m h in
      if allowed then
        (Ok ((if setHeaders l && has_setHeader res
              then [SetHeader "X-RateLimit-Remaining" (FixedFour (st_tokens state))]
              else [])
             ++ [Next None]), m, h)
      else if onReject l then (Ok [OnReject state], m, h)
      else
        (Ok ((if has_status res then [Status 429] else [])
             ++ (if has_setHeader res
                 then [SetHeader "Retry-After" (NumberString (st_lastRefill state))]
                 else [])
             ++ (if has_send res then [Send "Too Many Requests"]
                 else if has_end res then [EndResponse]
                 else [Next (Some "Too Many Requests"%string)])), m, h)
  end.


End Express.

(** ** The in-memory bucket on doubles ([tokenBucket.ts]) *)

(** [Math.min], [Math.ceil] and [Number(x.toFixed(4))] on binary64 numbers. *)
Module Binary64.

Definition of_Z (z : Z) : float := PrimFloat.of_uint63 (Uint63.of_Z z).

(** [Math.min(a, b)]: NaN if either is; of two zeros the negative one. *)
Definition Math_min (a b : float) : float :=
  if PrimFloat.is_nan a || PrimFloat.is_nan b then PrimFloat.nan
  else if PrimFloat.ltb a b then a
  else if PrimFloat.ltb b a then b
  else if PrimFloat.get_sign a then a else b.

(** [Math.ceil(x)]. A finite [x] is [m * 2^e] up to sign; it is a whole
    number already when [e >= 0], and otherwise the ceiling is below [2^53]
    in magnitude, so it is a double. *)
Definition Math_ceil (x : float) : float :=
  match Prim2SF x with
  | S754_finite s m e =>
      if (0 <=? e)%Z then x
      else
        let q := Z.shiftr (Z.pos m) (- e) in
        if s then
          if (q =? 0)%Z then PrimFloat.neg_zero else PrimFloat.opp (of_Z q)
        else of_Z (if (Z.shiftl q (- e) =? Z.pos m)%Z then q else (q + 1)%Z)
  | _ => x
  end.

(** [Number(x.toFixed(4))]. [toFixed(4)] writes the decimal [n / 10^4]
    nearest to [|x|], the larger [n] on a tie, and [Number] reads it back as
    the nearest double. From [2^39] on the doubles are more than [10^-4]
    apart and that double is [x] itself; below, [n < 2^53] is a double and
    the division rounds once. *)
Definition toFixed4 (x : float) : float :=
  match Prim2SF x with
  | S754_finite s m e =>
      if PrimFloat.leb 549755813888 (PrimFloat.abs x) then x
      else
        let n := Z.shiftr (Z.pos m * 20000 + Z.shiftl 1 (- e)) (1 - e) in
        let r := PrimFloat.div (of_Z n) 10000 in
        if s then PrimFloat.opp r else r
  | S754_zero _ => PrimFloat.zero
  | _ => x
  end.

End Binary64.

(** The class of [tokenBucket.ts] with its numbers as they are at run time:
    binary64 doubles, with their rounding, their infinities and NaN. It is
    [Module TokenBucket] again, operation by operation. *)
Module TokenBucket64.
Import Binary64.
Local Open Scope float_scope.

Definition Clock : Type := nat -> float.

Record State : Type := mkState {
  st_tokens : float;
  st_capacity : float;
  st_refillRate : float;
  st_lastRefill : float;
}.

Definition Hook : Type := State -> HookOutcome.

Record Options : Type := mkOptions {
  opt_capacity : float;
  opt_refillRate : float;
  opt_currentTime : option Clock;
  opt_onRateLimit : option Hook;
}.

Record t : Type := mk {
  capacity : float;
  refillRate : float;
  tokens : float;
  lastRefillTimestamp : float;
  getTime : Clock;
  ticks : nat;
  onRateLimit : option Hook;
  totalRequests : nat;
  allowedRequests : nat;
  limitedRequests : nat;
}.

Definition set_tokens (v : float) (b : t) : t :=
  mk (capacity b) (refillRate b) v (lastRefillTimestamp b) (getTime b)
     (ticks b) (onRateLimit b) (totalRequests b) (allowedRequests b)
     (limitedRequests b).

Definition set_lastRefillTimestamp (v : float) (b : t) : t :=
  mk (capacity b) (refillRate b) (tokens b) v (getTime b)
     (ticks b) (onRateLimit b) (totalRequests b) (allowedRequests b)
     (limitedRequests b).

Definition incr_totalRequests (b : t) : t :=
  mk (capacity b) (refillRate b) (tokens b) (lastRefillTimestamp b) (getTime b)
     (ticks b) (onRateLimit b) (S (totalRequests b)) (allowedRequests b)
     (limitedRequests b).

Definition incr_allowedRequests (b : t) : t :=
  mk (capacity b) (refillRate b) (tokens b) (lastRefillTimestamp b) (getTime b)
     (ticks b) (onRateLimit b) (totalRequests b) (S (allowedRequests b))
     (limitedRequests b).

Definition incr_limitedRequests (b : t) : t :=
  mk (capacity b) (refillRate b) (tokens b) (lastRefillTimestamp b) (getTime b)
     (ticks b) (onRateLimit b) (totalRequests b) (allowedRequests b)
     (S (limitedRequests b)).

(** [this.getTime()]. *)
Definition readTime (b : t) : float * t :=
  (getTime b (ticks b),
   mk (capacity b) (refillRate b) (tokens b) (lastRefillTimestamp b) (getTime b)
      (S (ticks b)) (onRateLimit b) (totalRequests b) (allowedRequests b)
      (limitedRequests b)).

(** [new TokenBucket(options)], with [DateNow] for [Date.now]. Both
    comparisons of the guard are false of NaN. *)
Definition constructor (DateNow : Clock) (options : Options) : Result t :=
  if (opt_capacity options <=? 0) || (opt_refillRate options <? 0)
  then Throw InvalidOptions
  else Ok (mk (opt_capacity options)
              (opt_refillRate options)
              (opt_capacity options)
              (DateNow O)
              (match opt_currentTime options with
               | Some c => c
               | None => fun n => DateNow (S n)
               end)
              O
              (opt_onRateLimit options)
              O O O).

Definition refill (b : t) : t :=
  let '(now, b) := readTime b in
  let elapsedSeconds := (now - lastRefillTimestamp b) / 1000 in
  if 0 <? elapsedSeconds then
    let newTokens := tokens b + elapsedSeconds * refillRate b in
    set_lastRefillTimestamp now (set_tokens (Math_min newTokens (capacity b)) b)
  else b.

Definition getState (b : t) : State * t :=
  let b := refill b in
  (mkState (toFixed4 (tokens b)) (capacity b) (refillRate b)
           (lastRefillTimestamp b), b).

Definition allow (cost : float) (b : t) : Result bool * t :=
  let b := incr_totalRequests b in
  let b := refill b in
  if cost <=? tokens b then
    let b := set_tokens (tokens b - cost) b in
    let b := incr_allowedRequests b in
    (Ok true, b)
  else
    let b := incr_limitedRequests b in
    match onRateLimit b with
    | Some hook =>
        let '(s, b) := getState b in
        match hook s with
        | HookReturns => (Ok false, b)
        | HookThrows e => (Throw (HookFailure e), b)
        end
    | None => (Ok false, b)
    end.

Definition check (cost : float) (b : t) : bool * t :=
  let b := refill b in
  (cost <=? tokens b, b).

Definition timeToRefill (cost : float) (b : t) : float * t :=
  let b := refill b in
  if cost <=? tokens b then (0, b)
  else
    let needed := cost - tokens b in
    (Math_ceil ((needed / refillRate b) * 1000), b).

Definition reset (b : t) : t :=
  let b := set_tokens (capacity b) b in
  let '(now, b) := readTime b in
  set_lastRefillTimestamp now b.

Definition getMetrics (b : t) : nat * nat * nat :=
  (totalRequests b, allowedRequests b, limitedRequests b).

End TokenBucket64.

Module Scenario64.
Import TokenBucket64.
Local Open Scope float_scope.

(** A time source that always answers [t]. *)
Definition fixed (t : float) : Clock := fun _ => t.

(** A time source that answers [t0] once and [t1] from then on. *)
Definition advancing (t0 t1 : float) : Clock :=
  fun n => match n with O => t0 | S _ => t1 end.

(** [capacity = 10], [refillRate = 5], injected clock [c], no hook, and the
    bucket the constructor makes of them when [Date.now()] answers [d]. *)
Definition options_10_5 (c : Clock) : Options := mkOptions 10 5 (Some c) None.

Definition bucket_10_5 (d : float) (c : Clock) : t :=
  mk 10 5 10 d c O None O O O.

(** A bucket of the given capacity and rate, emptied at [lastRefill = 0]. *)
Definition drained (capacity refillRate : float) (c : Clock) : t :=
  mk capacity refillRate 0 0 c O None O O O.

End Scenario64.

(** * Properties *)

(** ** Comparisons *)

Lemma Qgtb_true (a b : Q) : Qgtb a b = true <-> b < a.
Proof.
  unfold Qgtb. rewrite negb_true_iff, <- not_true_iff_false, Qle_bool_iff.
  split; [apply Qnot_le_lt | apply Qlt_not_le].
Qed.

Lemma Qgtb_false (a b : Q) : Qgtb a b = false <-> a <= b.
Proof.
  unfold Qgtb. rewrite negb_false_iff. apply Qle_bool_iff.
Qed.

Lemma Qgeb_true (a b : Q) : Qgeb a b = true <-> b <= a.
Proof. unfold Qgeb. apply Qle_bool_iff. Qed.

Lemma Qgeb_false (a b : Q) : Qgeb a b = false <-> a < b.
Proof.
  unfold Qgeb. rewrite <- not_true_iff_false, Qle_bool_iff.
  split; [apply Qnot_le_lt | apply Qlt_not_le].
Qed.

(** [Math.min] against the comparison the Lua script spells out. *)
Lemma Math_min_cases (x c : Q) :
  Math_min x c = if Qgtb x c then c else x.
Proof.
  unfold Math_min, Qmin, GenericMinMax.gmin.
  destruct (Qgtb x c) eqn:E.
  - apply Qgtb_true in E. apply Qgt_alt in E. now rewrite E.
  - apply Qgtb_false in E. pose proof (proj1 (Qle_alt x c) E) as E'.
    destruct (x ?= c); try reflexivity. now elim E'.
Qed.

Lemma Math_min_le_r (x c : Q) : Math_min x c <= c.
Proof. unfold Math_min. apply Q.le_min_r. Qed.

Lemma Math_min_glb (x c z : Q) : z <= x -> z <= c -> z <= Math_min x c.
Proof. unfold Math_min. apply Q.min_glb. Qed.

(** ** Refill *)

Section Refill.
Import TokenBucket.
Variable b : t.

Let now := getTime b (ticks b).
Let elapsedSeconds := (now - lastRefillTimestamp b) / 1000.

Lemma refill_late :
  0 < elapsedSeconds ->
  refill b =
    mk (capacity b) (refillRate b)
       (Math_min (tokens b + elapsedSeconds * refillRate b) (capacity b))
       now (getTime b) (S (ticks b)) (onRateLimit b)
       (totalRequests b) (allowedRequests b) (limitedRequests b).
Proof.
  intros H. unfold refill. cbn.
  apply Qgtb_true in H. subst elapsedSeconds now. now rewrite H.
Qed.

Lemma refill_early :
  elapsedSeconds <= 0 ->
  refill b =
    mk (capacity b) (refillRate b) (tokens b) (lastRefillTimestamp b)
       (getTime b) (S (ticks b)) (onRateLimit b)
       (totalRequests b) (allowedRequests b) (limitedRequests b).
Proof.
  intros H. unfold refill. cbn.
  apply Qgtb_false in H. subst elapsedSeconds now. now rewrite H.
Qed.

Lemma refill_cases :
  (0 < elapsedSeconds /\
   tokens (refill b) = Math_min (tokens b + elapsedSeconds * refillRate b) (capacity b) /\
   lastRefillTimestamp (refill b) = now)
  \/
  (elapsedSeconds <= 0 /\
   tokens (refill b) = tokens b /\
   lastRefillTimestamp (refill b) = lastRefillTimestamp b).
Proof.
  destruct (Qlt_le_dec 0 elapsedSeconds) as [H | H].
  - left. rewrite (refill_late H). auto.
  - right. rewrite (refill_early H). auto.
Qed.

Lemma refill_frame :
  capacity (refill b) = capacity b /\
  refillRate (refill b) = refillRate b /\
  getTime (refill b) = getTime b /\
  ticks (refill b) = S (ticks b) /\
  onRateLimit (refill b) = onRateLimit b /\
  totalRequests (refill b) = totalRequests b /\
  allowedRequests (refill b) = allowedRequests b /\
  limitedRequests (refill b) = limitedRequests b.
Proof.
  destruct (Qlt_le_dec 0 elapsedSeconds) as [H | H].
  - rewrite (refill_late H). cbn. tauto.
  - rewrite (refill_early H). cbn. tauto.
Qed.

End Refill.

Arguments TokenBucket.refill : simpl never.

(** ** What one call does *)

Section OneCall.
Import TokenBucket.

(** The three ways [allow] can end, with the bucket each leaves. *)
Lemma allow_cases (cost : Q) (b : t) :
  let b1 := refill (incr_totalRequests b) in
  (cost <= tokens b1 /\
   allow cost b =
     (Ok true, incr_allowedRequests (set_tokens (tokens b1 - cost) b1)))
  \/
  (tokens b1 < cost /\ onRateLimit b1 = None /\
   allow cost b = (Ok false, incr_limitedRequests b1))
  \/
  (tokens b1 < cost /\
   exists hook, onRateLimit b1 = Some hook /\
     let sb := getState (incr_limitedRequests b1) in
     (hook (fst sb) = HookReturns /\ allow cost b = (Ok false, snd sb) \/
      exists e, hook (fst sb) = HookThrows e /\
                allow cost b = (Throw (HookFailure e), snd sb))).
Proof.
  intros b1. unfold allow. fold b1.
  destruct (Qgeb (tokens b1) cost) eqn:E.
  - left. apply Qgeb_true in E. auto.
  - right. apply Qgeb_false in E.
    change (onRateLimit (incr_limitedRequests b1)) with (onRateLimit b1).
    destruct (onRateLimit b1) as [hook |] eqn:Hh.
    + right. split; [exact E |]. exists hook. split; [reflexivity |].
      destruct (getState (incr_limitedRequests b1)) as [s b2] eqn:Hs. cbn.
      destruct (hook s) eqn:Hk; [left | right; exists e]; auto.
    + left. auto.
Qed.

Lemma refill_in_range (b : t) :
  Calls.configured b -> Calls.in_range b -> Calls.in_range (refill b).
Proof.
  intros [Hc Hr] [H0 H1]. unfold Calls.in_range.
  destruct (refill_cases b) as [(He & Ht & _) | (_ & Ht & _)];
    rewrite Ht; destruct (refill_frame b) as (-> & _).
  - split; [| apply Math_min_le_r].
    apply Math_min_glb; [| lra].
    pose proof (Qmult_le_0_compat _ _ (Qlt_le_weak _ _ He) Hr). lra.
  - split; assumption.
Qed.

Lemma refill_configured (b : t) :
  Calls.configured b -> Calls.configured (refill b).
Proof.
  unfold Calls.configured.
  destruct (refill_frame b) as (-> & -> & _). auto.
Qed.

Lemma getState_snd (b : t) : snd (getState b) = refill b.
Proof. reflexivity. Qed.

Lemma check_snd (cost : Q) (b : t) : snd (check cost b) = refill b.
Proof. reflexivity. Qed.

Lemma timeToRefill_snd (cost : Q) (b : t) :
  snd (timeToRefill cost b) = refill b.
Proof.
  unfold timeToRefill. destruct (Qgeb (tokens (refill b)) cost); reflexivity.
Qed.

Lemma refill_healthy (b : t) : Calls.healthy b -> Calls.healthy (refill b).
Proof.
  intros [Hc Hi]. split; [apply refill_configured | apply refill_in_range]; auto.
Qed.





(** Counters. *)
Lemma allow_counts (cost : Q) (b : t) :
  let b' := snd (allow cost b) in
  totalRequests b' = S (totalRequests b) /\
  ((allowedRequests b' = S (allowedRequests b) /\
    limitedRequests b' = limitedRequests b) \/
   (allowedRequests b' = allowedRequests b /\
    limitedRequests b' = S (limitedRequests b))).
Proof.
  cbn zeta.
  pose proof (refill_frame (incr_totalRequests b)) as (_ & _ & _ & _ & _ & Ht & Ha & Hl).
  destruct (allow_cases cost b) as [(_ & ->) | [(_ & _ & ->) | (_ & hook & _ & H)]];
    cbn [snd].
  - cbn. rewrite Ht, Ha, Hl. cbn. auto.
  - cbn. rewrite Ht, Ha, Hl. cbn. auto.
  - cbn zeta in H.
    assert (E : snd (allow cost b) =
                refill (incr_limitedRequests (refill (incr_totalRequests b)))).
    { destruct H as [(_ & ->) | (e & _ & ->)]; reflexivity. }
    rewrite E.
    pose proof (refill_frame (incr_limitedRequests (refill (incr_totalRequests b))))
      as (_ & _ & _ & _ & _ & Ht' & Ha' & Hl').
    rewrite Ht', Ha', Hl'. cbn. rewrite Ht, Ha, Hl. cbn. auto.
Qed.

Lemma refill_same_metrics (b : t) : Calls.same_metrics b (refill b).
Proof.
  unfold Calls.same_metrics, getMetrics.
  destruct (refill_frame b) as (_ & _ & _ & _ & _ & -> & -> & ->). reflexivity.
Qed.

End OneCall.

(** ** Sequences of calls *)


Lemma step_metrics_consistent (b : TokenBucket.t) (o : Calls.Op) :
  Calls.metrics_consistent b -> Calls.metrics_consistent (Calls.step b o).
Proof.
  unfold Calls.metrics_consistent. intros Hb.
  destruct o as [cost | cost | cost | |]; cbn [Calls.step].
  - destruct (allow_counts cost b) as (Ht & [(Ha & Hl) | (Ha & Hl)]);
      rewrite Ht, Ha, Hl; lia.
  - rewrite check_snd.
    destruct (refill_frame b) as (_ & _ & _ & _ & _ & -> & -> & ->). exact Hb.
  - rewrite timeToRefill_snd.
    destruct (refill_frame b) as (_ & _ & _ & _ & _ & -> & -> & ->). exact Hb.
  - rewrite getState_snd.
    destruct (refill_frame b) as (_ & _ & _ & _ & _ & -> & -> & ->). exact Hb.
  - exact Hb.
Qed.

Lemma run_metrics_consistent (ops : list Calls.Op) (b : TokenBucket.t) :
  Calls.metrics_consistent b -> Calls.metrics_consistent (Calls.run ops b).
Proof.
  revert b. induction ops as [| o ops IH]; intros b Hb; cbn.
  - exact Hb.
  - apply IH. now apply step_metrics_consistent.
Qed.

(** ** The claims about the in-memory bucket's state and counters *)



(** The bounds are about finite numbers. The guard of the constructor is
    false of NaN and lets [Infinity] through: a bucket of capacity NaN holds
    NaN tokens, of which [0 <= tokens] is false, and from a bucket of
    capacity [Infinity] a granted [allow(Infinity)] leaves NaN. Nor may the
    time elapsed overflow: with rate 0, a [reset] at [-2^1023] and a reading
    of [2^1023] make the refill add [Infinity * 0]. *)
Lemma tokens_bounds_need_finite_numbers :
  (exists b,
      TokenBucket64.constructor (Scenario64.fixed 0)
        (TokenBucket64.mkOptions PrimFloat.nan 5 None None) = Ok b /\
      TokenBucket64.tokens b = PrimFloat.nan /\
      PrimFloat.leb 0 (TokenBucket64.tokens b) = false) /\
  (exists b,
      TokenBucket64.constructor (Scenario64.fixed 0)
        (TokenBucket64.mkOptions PrimFloat.infinity 5 None None) = Ok b /\
      fst (TokenBucket64.allow PrimFloat.infinity b) = Ok true /\
      TokenBucket64.tokens (snd (TokenBucket64.allow PrimFloat.infinity b))
      = PrimFloat.nan) /\
  (exists b,
      TokenBucket64.constructor (Scenario64.fixed 0)
        (TokenBucket64.mkOptions 10 0
           (Some (Scenario64.advancing (-0x1p+1023) 0x1p+1023)) None) = Ok b /\
      TokenBucket64.tokens
        (snd (TokenBucket64.check 1 (TokenBucket64.reset b)))
      = PrimFloat.nan)%float.
Proof.
  split; [| split]; eexists; (split; [reflexivity |]); vm_compute;
    repeat split.
Qed.



(** C9: starting from a bucket built by the constructor, after every sequence
    of calls [totalRequests = allowed + limited]; from the bucket reached,
    [allow] adds one to [totalRequests] and to exactly one of [allowed] and
    [limited], while [check], [timeToRefill], [getState] and [reset] leave
    the three counters as they are. *)
Theorem metrics_invariant
    (DateNow : Clock) (options : TokenBucket.Options) (b0 : TokenBucket.t)
    (ops : list Calls.Op) :
  TokenBucket.constructor DateNow options = Ok b0 ->
  let b := Calls.run ops b0 in
  Calls.metrics_consistent b /\
  (forall cost,
      let b' := snd (TokenBucket.allow cost b) in
      TokenBucket.totalRequests b' = S (TokenBucket.totalRequests b) /\
      ((TokenBucket.allowedRequests b' = S (TokenBucket.allowedRequests b) /\
        TokenBucket.limitedRequests b' = TokenBucket.limitedRequests b) \/
       (TokenBucket.allowedRequests b' = TokenBucket.allowedRequests b /\
        TokenBucket.limitedRequests b' = S (TokenBucket.limitedRequests b)))) /\
  (forall cost, Calls.same_metrics b (snd (TokenBucket.check cost b))) /\
  (forall cost, Calls.same_metrics b (snd (TokenBucket.timeToRefill cost b))) /\
  Calls.same_metrics b (snd (TokenBucket.getState b)) /\
  Calls.same_metrics b (TokenBucket.reset b).
Proof.
  intros Hb b.
  split; [| split; [| split; [| split; [| split]]]].
  - apply run_metrics_consistent.
    unfold TokenBucket.constructor in Hb.
    destruct (_ || _); [discriminate |]. injection Hb as <-. reflexivity.
  - intros cost. apply allow_counts.
  - intros cost. rewrite check_snd. apply refill_same_metrics.
  - intros cost. rewrite timeToRefill_snd. apply refill_same_metrics.
  - rewrite getState_snd. apply refill_same_metrics.
  - reflexivity.
Qed.

Lemma metrics_invariant_witness :
  Calls.metrics_consistent
    (Calls.run [Calls.Allow 7; Calls.Allow 7; Calls.Reset; Calls.Check 1]
       (Scenario.bucket_10_5 0 (Scenario.fixed 0))).
Proof.
  exact (proj1 (metrics_invariant (Scenario.fixed 0)
                  (Scenario.options_10_5 (Scenario.fixed 0))
                  (Scenario.bucket_10_5 0 (Scenario.fixed 0))
                  [Calls.Allow 7; Calls.Allow 7; Calls.Reset; Calls.Check 1]
                  eq_refl)).
Defined.

(** C10: [reset] sets [tokens] to [capacity] and [lastRefill] to the next
    reading of the bucket's clock; [capacity], [refillRate], the hook, the
    time source and the three counters are as before the call. *)
Theorem reset_frame (b : TokenBucket.t) :
  TokenBucket.tokens (TokenBucket.reset b) = TokenBucket.capacity b /\
  TokenBucket.lastRefillTimestamp (TokenBucket.reset b)
    = TokenBucket.getTime b (TokenBucket.ticks b) /\
  TokenBucket.capacity (TokenBucket.reset b) = TokenBucket.capacity b /\
  TokenBucket.refillRate (TokenBucket.reset b) = TokenBucket.refillRate b /\
  TokenBucket.onRateLimit (TokenBucket.reset b) = TokenBucket.onRateLimit b /\
  TokenBucket.getTime (TokenBucket.reset b) = TokenBucket.getTime b /\
  TokenBucket.totalRequests (TokenBucket.reset b) = TokenBucket.totalRequests b /\
  TokenBucket.allowedRequests (TokenBucket.reset b) = TokenBucket.allowedRequests b /\
  TokenBucket.limitedRequests (TokenBucket.reset b) = TokenBucket.limitedRequests b /\
  TokenBucket.getMetrics (TokenBucket.reset b) = TokenBucket.getMetrics b.
Proof. repeat split. Qed.

(** ** Refill arithmetic *)

Lemma div1000_pos (x : Q) : 0 < x / 1000 <-> 0 < x.
Proof. unfold Qdiv. change (/ 1000) with (1 # 1000). split; intros; lra. Qed.

Lemma div1000_nonpos (x : Q) : x / 1000 <= 0 <-> x <= 0.
Proof. unfold Qdiv. change (/ 1000) with (1 # 1000). split; intros; lra. Qed.

Section RefillArithmetic.
Import TokenBucket.
Variable b : t.

(** A reading that is not later than [lastRefill] changes nothing but the
    position in the time source. *)
Lemma refill_not_later :
  getTime b (ticks b) <= lastRefillTimestamp b ->
  refill b = snd (readTime b).
Proof.
  intros H. rewrite refill_early; [reflexivity |].
  apply div1000_nonpos. lra.
Qed.

(** After a refill, [lastRefill] is not earlier than the reading used. *)
Lemma refill_lastRefill_ge :
  getTime b (ticks b) <= lastRefillTimestamp (refill b).
Proof.
  destruct (refill_cases b) as [(_ & _ & ->) | (He & _ & ->)].
  - lra.
  - pose proof (proj1 (div1000_nonpos _) He). lra.
Qed.

(** A full bucket with a positive rate stays full, literally. *)
Lemma refill_full :
  tokens b = capacity b -> 0 < refillRate b ->
  tokens (refill b) = capacity b.
Proof.
  intros Hfull Hr.
  destruct (refill_cases b) as [(He & -> & _) | (_ & -> & _)]; [| exact Hfull].
  rewrite Math_min_cases.
  assert (G : Qgtb
                (tokens b
                 + (getTime b (ticks b) - lastRefillTimestamp b) / 1000
                   * refillRate b)
                (capacity b) = true).
  { apply Qgtb_true. rewrite Hfull.
    pose proof (Qmult_lt_0_compat _ _ He Hr). lra. }
  now rewrite G.
Qed.

(** Refill linearity: [delta] seconds after [lastRefill], with nothing
    consumed in between, the bucket holds
    [min(capacity, tokens + delta * refillRate)]. *)
Lemma refill_linearity (delta : Q) :
  getTime b (ticks b) == lastRefillTimestamp b + delta * 1000 ->
  0 <= delta ->
  tokens b <= capacity b ->
  tokens (refill b) == Qmin (capacity b) (tokens b + delta * refillRate b).
Proof.
  intros Hnow Hd Hcap.
  assert (Hel : (getTime b (ticks b) - lastRefillTimestamp b) / 1000 == delta).
  { rewrite Hnow. field. }
  assert (Hmul : (getTime b (ticks b) - lastRefillTimestamp b) / 1000 * refillRate b
                 == delta * refillRate b).
  { rewrite Hel. reflexivity. }
  destruct (refill_cases b) as [(He & -> & _) | (He & -> & _)].
  - unfold Math_min. rewrite Q.min_comm.
    apply Q.min_compat; [reflexivity |]. rewrite Hmul. reflexivity.
  - assert (Hz : delta == 0) by lra.
    assert (Hz' : tokens b + delta * refillRate b == tokens b).
    { rewrite Hz. ring. }
    rewrite Hz'. symmetry. apply Q.min_r. exact Hcap.
Qed.

End RefillArithmetic.

(** ** Buckets whose clock stands still *)

Section FixedClock.
Import TokenBucket.
Variables (t0 : Q) (h : option Hook).

Lemma refill_settled (c r tk last : Q) (n tr ar lr : nat) :
  t0 <= last ->
  refill (mk c r tk last (Scenario.fixed t0) n h tr ar lr)
  = mk c r tk last (Scenario.fixed t0) (S n) h tr ar lr.
Proof.
  intros H. rewrite refill_not_later; [reflexivity | exact H].
Qed.

Lemma refill_full_fixed (c r d : Q) (n tr ar lr : nat) :
  0 < r ->
  exists last, t0 <= last /\
    refill (mk c r c d (Scenario.fixed t0) n h tr ar lr)
    = mk c r c last (Scenario.fixed t0) (S n) h tr ar lr.
Proof.
  intros Hr.
  set (b := mk c r c d (Scenario.fixed t0) n h tr ar lr).
  exists (lastRefillTimestamp (refill b)). split.
  - apply (refill_lastRefill_ge b).
  - pose proof (refill_full b eq_refl Hr) as Ht.
    pose proof (refill_frame b) as (Hc & Hrr & Hg & Hk & Hh & H1 & H2 & H3).
    destruct (refill b); cbn in *. congruence.
Qed.

End FixedClock.

Ltac bucket_fields :=
  cbn [TokenBucket.capacity TokenBucket.refillRate TokenBucket.tokens
       TokenBucket.lastRefillTimestamp TokenBucket.getTime TokenBucket.ticks
       TokenBucket.onRateLimit TokenBucket.totalRequests
       TokenBucket.allowedRequests TokenBucket.limitedRequests
       TokenBucket.incr_totalRequests TokenBucket.incr_allowedRequests
       TokenBucket.incr_limitedRequests TokenBucket.set_tokens
       TokenBucket.set_lastRefillTimestamp].

Section ScenarioA.
Import TokenBucket.

(** Scenario A from any position of the counters and any [lastRefill]. *)
Lemma scenario_A_trace (d : Q) (n tr ar lr : nat) :
  let b0 := mk 10 5 10 d (Scenario.fixed 0) n None tr ar lr in
  fst (allow 10 b0) = Ok true /\
  fst (allow 1 (snd (allow 10 b0))) = Ok false /\
  fst (timeToRefill 1 (snd (allow 1 (snd (allow 10 b0))))) = Finite 200.
Proof.
  intros b0. subst b0.
  destruct (refill_full_fixed 0 None 10 5 d n (S tr) ar lr)
    as (last & Hl & E1); [lra |].
  assert (H1 : allow 10 (mk 10 5 10 d (Scenario.fixed 0) n None tr ar lr)
               = (Ok true,
                  mk 10 5 (10 - 10) last (Scenario.fixed 0) (S n) None
                     (S tr) (S ar) lr)).
  { unfold allow, incr_totalRequests. bucket_fields. rewrite E1. reflexivity. }
  rewrite H1. cbn [fst snd].
  assert (H2 : allow 1 (mk 10 5 (10 - 10) last (Scenario.fixed 0) (S n) None
                          (S tr) (S ar) lr)
               = (Ok false,
                  mk 10 5 (10 - 10) last (Scenario.fixed 0) (S (S n)) None
                     (S (S tr)) (S ar) (S lr))).
  { unfold allow, incr_totalRequests. bucket_fields.
    rewrite (refill_settled 0 None) by exact Hl. reflexivity. }
  rewrite H2. cbn [fst snd].
  unfold timeToRefill. rewrite (refill_settled 0 None) by exact Hl.
  repeat split.
Qed.

Lemma timeToRefill_cases (cost : Q) (b : t) :
  let b' := refill b in
  snd (timeToRefill cost b) = b' /\
  (cost <= tokens b' -> fst (timeToRefill cost b) = Finite 0) /\
  (tokens b' < cost -> ~ refillRate b == 0 ->
   fst (timeToRefill cost b)
   = Finite (inject_Z (Qceiling ((cost - tokens b') / refillRate b * 1000)))) /\
  (tokens b' < cost -> refillRate b == 0 ->
   fst (timeToRefill cost b) = PosInfinity).
Proof.
  intros b'. split; [apply timeToRefill_snd |].
  unfold timeToRefill. fold b'.
  assert (Hr : refillRate b' = refillRate b) by apply refill_frame.
  rewrite Hr.
  destruct (Qgeb (tokens b') cost) eqn:E.
  - apply Qgeb_true in E. cbn [fst].
    split; [reflexivity |]. split; intros; lra.
  - apply Qgeb_false in E. cbn [fst].
    split; [intros; lra |]. unfold js_div. split.
    + intros _ Hnz.
      destruct (Qeq_bool (refillRate b) 0) eqn:Ez; [| reflexivity].
      apply Qeq_bool_iff in Ez. contradiction.
    + intros _ Hz.
      apply Qeq_bool_iff in Hz. rewrite Hz.
      assert (G : Qgtb (cost - tokens b') 0 = true) by (apply Qgtb_true; lra).
      rewrite G. reflexivity.
Qed.

End ScenarioA.

(** ** The claims about refill and waiting time *)

Section WaitingTime.
Import Binary64 TokenBucket64.
Local Open Scope float_scope.

(** No refill when no time has elapsed. *)
Lemma refill_idle (b : t) :
  (0 <? (getTime b (ticks b) - lastRefillTimestamp b) / 1000) = false ->
  refill b = snd (readTime b).
Proof.
  intros H. unfold refill, readTime. cbn [lastRefillTimestamp snd].
  rewrite H. reflexivity.
Qed.

(** Scenario A from any [lastRefill] at which the clock, standing at 0, shows
    no time elapsed. *)
Lemma scenario_A_doubles (d : float) :
  (0 <? (0 - d) / 1000) = false ->
  let b0 := Scenario64.bucket_10_5 d (Scenario64.fixed 0) in
  fst (allow 10 b0) = Ok true /\
  fst (allow 1 (snd (allow 10 b0))) = Ok false /\
  fst (timeToRefill 1 (snd (allow 1 (snd (allow 10 b0))))) = 200.
Proof.
  intros Hd b0. subst b0.
  assert (H1 : allow 10 (Scenario64.bucket_10_5 d (Scenario64.fixed 0))
               = (Ok true, mk 10 5 0 d (Scenario64.fixed 0) 1 None 1 1 0)).
  { unfold allow. rewrite refill_idle by (vm_compute; exact Hd).
    vm_compute. reflexivity. }
  rewrite H1. cbn [fst snd].
  assert (H2 : allow 1 (mk 10 5 0 d (Scenario64.fixed 0) 1 None 1 1 0)
               = (Ok false, mk 10 5 0 d (Scenario64.fixed 0) 2 None 2 1 1)).
  { unfold allow. rewrite refill_idle by (vm_compute; exact Hd).
    vm_compute. reflexivity. }
  rewrite H2. cbn [fst snd].
  unfold timeToRefill. rewrite refill_idle by (vm_compute; exact Hd).
  vm_compute. repeat split.
Qed.

(** C7: [timeToRefill(cost)] refills first: it reads the clock once and, when
    the time elapsed since [lastRefill] is positive, sets [tokens] to
    [Math.min(tokens + elapsedSeconds * refillRate, capacity)] and
    [lastRefill] to the reading. It then answers 0 when [tokens >= cost], as
    [check(cost)] would answer true, and otherwise
    [Math.ceil(((cost - tokens) / refillRate) * 1000)], every operation being
    that of the doubles. With capacity 10, rate 5 and a clock that stands at
    0, when [Date.now()] answered the constructor a [d] from which the clock
    shows no time elapsed (0 is one, 1700000000000 another): [allow(10)] is
    granted, the following [allow(1)] is denied, and [timeToRefill(1)] is
    200. When the clock has moved on to 1000, the wait for 10 tokens is 1000,
    five tokens having come back. With rate 1 and the clock at 59 the wait
    for one token is 942, the product [0.9410000000000001 * 1000] lying above
    941; with rate 0 it is [Infinity]. *)
Theorem timeToRefill_spec :
  (forall (cost : float) (b : t),
      let now := getTime b (ticks b) in
      let elapsedSeconds := (now - lastRefillTimestamp b) / 1000 in
      let tokens1 :=
        if 0 <? elapsedSeconds
        then Math_min (tokens b + elapsedSeconds * refillRate b) (capacity b)
        else tokens b in
      let b1 := snd (timeToRefill cost b) in
      tokens b1 = tokens1 /\
      lastRefillTimestamp b1
      = (if 0 <? elapsedSeconds then now else lastRefillTimestamp b) /\
      ticks b1 = S (ticks b) /\
      capacity b1 = capacity b /\
      refillRate b1 = refillRate b /\
      getMetrics b1 = getMetrics b /\
      fst (timeToRefill cost b)
      = (if cost <=? tokens1 then 0
         else Math_ceil (((cost - tokens1) / refillRate b) * 1000)) /\
      check cost b = (cost <=? tokens1, b1))
  /\
  (forall (DateNow : Clock) (b0 : t),
      (0 <? (0 - DateNow O) / 1000) = false ->
      constructor DateNow (Scenario64.options_10_5 (Scenario64.fixed 0))
      = Ok b0 ->
      fst (allow 10 b0) = Ok true /\
      fst (allow 1 (snd (allow 10 b0))) = Ok false /\
      fst (timeToRefill 1 (snd (allow 1 (snd (allow 10 b0))))) = 200)
  /\
  (let b0 := Scenario64.bucket_10_5 0 (Scenario64.advancing 0 1000) in
   fst (allow 10 b0) = Ok true /\
   fst (timeToRefill 10 (snd (allow 10 b0))) = 1000 /\
   tokens (snd (timeToRefill 10 (snd (allow 10 b0)))) = 5)
  /\
  fst (timeToRefill 1 (Scenario64.drained 10 1 (Scenario64.fixed 59))) = 942
  /\
  fst (timeToRefill 1 (Scenario64.drained 10 0 (Scenario64.fixed 59)))
  = infinity.
Proof.
  split; [| split; [| split; [| split]]].
  - intros cost b. cbv zeta.
    unfold check, timeToRefill, refill, readTime.
    cbn [lastRefillTimestamp tokens refillRate capacity].
    destruct (0 <? (getTime b (ticks b) - lastRefillTimestamp b) / 1000).
    + cbn [tokens set_tokens set_lastRefillTimestamp lastRefillTimestamp
           capacity refillRate].
      destruct (cost <=? Math_min _ _); cbn; repeat split.
    + cbn [tokens]. destruct (cost <=? tokens b); cbn; repeat split.
  - intros DateNow b0 Hd Hb. vm_compute in Hb. injection Hb as <-.
    exact (scenario_A_doubles (DateNow O) Hd).
  - vm_compute. repeat split.
  - vm_compute. reflexivity.
  - vm_compute. reflexivity.
Qed.

Lemma timeToRefill_spec_witness :
  let b0 := Scenario64.bucket_10_5 1700000000000 (Scenario64.fixed 0) in
  fst (allow 10 b0) = Ok true /\
  fst (allow 1 (snd (allow 10 b0))) = Ok false /\
  fst (timeToRefill 1 (snd (allow 1 (snd (allow 10 b0))))) = 200.
Proof.
  exact (proj1 (proj2 timeToRefill_spec) (Scenario64.fixed 1700000000000)
           (Scenario64.bucket_10_5 1700000000000 (Scenario64.fixed 0))
           eq_refl eq_refl).
Defined.

(** The wait is computed from rounded numbers and can fall short by the last
    bit: a bucket of capacity 30 and rate 25, emptied at 0, answers 1160 for
    29 tokens, and at 1160 it holds 28.999999999999996 of them. *)
Example wait_can_fall_short :
  fst (timeToRefill 29 (Scenario64.drained 30 25 (Scenario64.fixed 0))) = 1160 /\
  fst (check 29 (Scenario64.drained 30 25 (Scenario64.fixed 1160))) = false.
Proof. split; vm_compute; reflexivity. Qed.

End WaitingTime.

(** C1, at the failing input: a bucket of capacity 10 and rate 5 is built with
    an injected clock that answers 0 and then 2000, while [Date.now()] answers
    any positive number of milliseconds. The constructor stamps [lastRefill]
    with [Date.now()], not with the injected clock; [allow(10)] at [t = 0] is
    granted, and [check(10)] at [t = 2000] answers false: fewer than ten
    tokens have come back. *)
Theorem scenario_B_with_injected_clock (DateNow : Clock) (b0 : TokenBucket.t) :
  0 < DateNow O ->
  TokenBucket.constructor DateNow
    (Scenario.options_10_5 (Scenario.advancing 0 2000)) = Ok b0 ->
  TokenBucket.lastRefillTimestamp b0 = DateNow O /\
  fst (TokenBucket.allow 10 b0) = Ok true /\
  fst (TokenBucket.check 10 (snd (TokenBucket.allow 10 b0))) = false.
Proof.
  intros Hd [= <-]. split; [reflexivity |].
  set (d := DateNow O) in *.
  assert (H1 : TokenBucket.allow 10
                 (TokenBucket.mk 10 5 10 d (Scenario.advancing 0 2000)
                    O None O O O)
               = (Ok true,
                  TokenBucket.mk 10 5 (10 - 10) d (Scenario.advancing 0 2000)
                    1%nat None 1%nat 1%nat O)).
  { unfold TokenBucket.allow, TokenBucket.incr_totalRequests. bucket_fields.
    rewrite refill_not_later; [reflexivity |]. cbn. lra. }
  rewrite H1. split; [reflexivity |]. cbn [fst snd].
  unfold TokenBucket.check. cbn [fst]. apply Qgeb_false.
  match goal with |- TokenBucket.tokens (TokenBucket.refill ?b) < _ =>
    destruct (refill_cases b) as [(He & -> & _) | (_ & -> & _)]
  end.
  - revert He. bucket_fields. cbn [Scenario.advancing]. intros He.
    eapply Qle_lt_trans; [apply Q.le_min_l |].
    unfold Qdiv. change (/ 1000) with (1 # 1000). lra.
  - bucket_fields. lra.
Qed.

Lemma scenario_B_with_injected_clock_witness :
  let b0 := Scenario.bucket_10_5 1700000000000 (Scenario.advancing 0 2000) in
  TokenBucket.lastRefillTimestamp b0 = 1700000000000 /\
  fst (TokenBucket.allow 10 b0) = Ok true /\
  fst (TokenBucket.check 10 (snd (TokenBucket.allow 10 b0))) = false.
Proof.
  apply (scenario_B_with_injected_clock (Scenario.fixed 1700000000000)).
  - reflexivity.
  - reflexivity.
Defined.

(** Had the constructor read the injected clock (so that [lastRefill] starts
    at 0), the same calls would give the ten tokens back. *)
Example scenario_B_when_clocks_agree :
  let b0 := Scenario.bucket_10_5 0 (Scenario.advancing 0 2000) in
  fst (TokenBucket.allow 10 b0) = Ok true /\
  fst (TokenBucket.check 10 (snd (TokenBucket.allow 10 b0))) = true.
Proof. vm_compute. split; reflexivity. Qed.

(** ** The script *)

Section Script.
Import RedisTokenBucket.

Lemma HMGET_HMSET (key : string) (tk last : Q) (store : Store) :
  HMGET key (HMSET key tk last store) = (Some tk, Some last).
Proof. unfold HMGET, HMSET. now rewrite lookup_insert_eq. Qed.

Lemma HMGET_EXPIRE (key : string) (ttl : Q) (store : Store) :
  HMGET key (EXPIRE key ttl store) = HMGET key store.
Proof.
  unfold HMGET, EXPIRE. destruct (store !! key) as [h |] eqn:E.
  - now rewrite lookup_insert_eq.
  - now rewrite E.
Qed.

Lemma lookup_HMSET_ne (key k : string) (tk last : Q) (store : Store) :
  k <> key -> HMSET key tk last store !! k = store !! k.
Proof. intros H. unfold HMSET. now rewrite lookup_insert_ne. Qed.

Lemma lookup_EXPIRE_ne (key k : string) (ttl : Q) (store : Store) :
  k <> key -> EXPIRE key ttl store !! k = store !! k.
Proof.
  intros H. unfold EXPIRE. destruct (store !! key); [| reflexivity].
  now rewrite lookup_insert_ne.
Qed.

(** One run of the script from the pair [(tk, last)]. *)
Lemma script_run (key : string) (args : ScriptArgs) (store : Store) (tk last : Q) :
  match fst (HMGET key store) with
  | None => (a_capacity args, Some (a_nowMs args))
  | Some t => (t, snd (HMGET key store))
  end = (tk, Some last) ->
  let '(tk1, last1) :=
    lua_refill (a_capacity args) (a_refillRate args) (a_nowMs args) tk last in
  let allowed := Qgeb tk1 (a_cost args) in
  let tk2 := if allowed && a_consume args then tk1 - a_cost args else tk1 in
  exists store',
    REDIS_TOKEN_BUCKET_LUA key args store
    = (Ok (mkReply (if allowed then 1 else 0) tk2
             (if a_returnState args then Some last1 else None)), store') /\
    HMGET key store' = (Some tk2, Some last1) /\
    (forall k, k <> key -> store' !! k = store !! k).
Proof.
  intros H. unfold REDIS_TOKEN_BUCKET_LUA, lua_refill. rewrite H.
  destruct (Qgtb (a_nowMs args - last) 0);
    [destruct (Qgtb (tk + (a_nowMs args - last) / 1000 * a_refillRate args)
                 (a_capacity args)) |];
    cbv zeta;
    match goal with |- context [Qgeb ?x (a_cost args)] =>
      destruct (Qgeb x (a_cost args)) end;
    destruct (a_consume args); cbn [andb];
    destruct (Qgtb (a_ttlSeconds args) 0);
    (eexists; split; [reflexivity |]; split;
     [ rewrite ?HMGET_EXPIRE; apply HMGET_HMSET
     | intros k Hk; rewrite ?lookup_EXPIRE_ne by exact Hk;
       apply lookup_HMSET_ne; exact Hk ]).
Qed.

End Script.

Lemma Qgtb_div1000 (x : Q) : Qgtb (x / 1000) 0 = Qgtb x 0.
Proof.
  destruct (Qgtb x 0) eqn:E.
  - apply Qgtb_true. apply div1000_pos. now apply Qgtb_true.
  - apply Qgtb_false. apply div1000_nonpos. now apply Qgtb_false.
Qed.

(** The in-memory refill computes what the script's refill computes. *)
Lemma refill_as_script (b : TokenBucket.t) :
  (TokenBucket.tokens (TokenBucket.refill b),
   TokenBucket.lastRefillTimestamp (TokenBucket.refill b))
  = RedisTokenBucket.lua_refill (TokenBucket.capacity b) (TokenBucket.refillRate b)
      (TokenBucket.getTime b (TokenBucket.ticks b))
      (TokenBucket.tokens b) (TokenBucket.lastRefillTimestamp b).
Proof.
  unfold RedisTokenBucket.lua_refill. rewrite <- Qgtb_div1000.
  destruct (refill_cases b) as [(He & -> & ->) | (He & -> & ->)].
  - apply Qgtb_true in He. rewrite He. now rewrite Math_min_cases.
  - apply Qgtb_false in He. now rewrite He.
Qed.

(** [allow] on a bucket whose clock answers [now] at every call, in the
    script's terms; a hook, if any, sees the bucket through a second refill
    that changes nothing. *)
Lemma allow_as_script (b : TokenBucket.t) (now cost : Q) :
  (forall n, TokenBucket.getTime b n = now) ->
  let '(tk1, last1) :=
    RedisTokenBucket.lua_refill (TokenBucket.capacity b) (TokenBucket.refillRate b)
      now (TokenBucket.tokens b) (TokenBucket.lastRefillTimestamp b) in
  let allowed := Qgeb tk1 cost in
  TokenBucket.tokens (snd (TokenBucket.allow cost b))
  = (if allowed then tk1 - cost else tk1) /\
  TokenBucket.lastRefillTimestamp (snd (TokenBucket.allow cost b)) = last1 /\
  (fst (TokenBucket.allow cost b) = Ok true <-> allowed = true) /\
  (allowed = false ->
   fst (TokenBucket.allow cost b) = Ok false \/
   exists e, fst (TokenBucket.allow cost b) = Throw (HookFailure e)).
Proof.
  intros Hclock.
  pose proof (refill_as_script (TokenBucket.incr_totalRequests b)) as Hs.
  revert Hs. bucket_fields. rewrite Hclock.
  destruct (RedisTokenBucket.lua_refill _ _ _ _ _) as [tk1 last1].
  set (b1 := TokenBucket.refill (TokenBucket.incr_totalRequests b)).
  intros [= Htk Hlast]. cbv zeta.
  pose proof (refill_frame (TokenBucket.incr_totalRequests b))
    as (_ & _ & Hg & Hk & _).
  fold b1 in Hg, Hk.
  destruct (allow_cases cost b)
    as [(Hle & E) | [(Hlt & _ & E) | (Hlt & hook & _ & E)]];
    fold b1 in Hle || fold b1 in Hlt; fold b1 in E.
  - rewrite E. cbn [fst snd]. bucket_fields. rewrite Htk in *.
    apply Qgeb_true in Hle. rewrite Hle. now repeat split.
  - rewrite E. cbn [fst snd]. bucket_fields. rewrite Htk, Hlast in *.
    apply Qgeb_false in Hlt. rewrite Hlt.
    repeat split; try discriminate. intros _. now left.
  - assert (Hstill : TokenBucket.refill (TokenBucket.incr_limitedRequests b1)
                     = snd (TokenBucket.readTime (TokenBucket.incr_limitedRequests b1))).
    { apply refill_not_later. bucket_fields. rewrite Hg. bucket_fields.
      rewrite Hclock.
      pose proof (refill_lastRefill_ge (TokenBucket.incr_totalRequests b)) as G.
      revert G. bucket_fields. rewrite Hclock. fold b1. auto. }
    assert (Hsnd : snd (TokenBucket.allow cost b)
                   = snd (TokenBucket.readTime (TokenBucket.incr_limitedRequests b1))).
    { rewrite <- Hstill. cbv zeta in E.
      destruct E as [(_ & ->) | (e & _ & ->)]; reflexivity. }
    rewrite Hsnd. cbn [snd TokenBucket.readTime]. bucket_fields.
    rewrite Htk, Hlast in *.
    apply Qgeb_false in Hlt. rewrite Hlt.
    split; [reflexivity |]. split; [reflexivity |].
    cbv zeta in E.
    destruct E as [(_ & ->) | (e & _ & ->)]; cbn [fst].
    + split; [split; discriminate | intros _; now left].
    + split; [split; discriminate | intros _; right; now exists e].
Qed.

(** ** The claims about the store-backed bucket *)

(** C3: take a stored state [(tokens, lastRefill)], a clock value [now] and a
    cost. The refill-decide-consume step of the in-memory [allow] and one run
    of the script with [consume = 1] on a key holding that state agree on the
    decision, on the resulting [tokens] and on the resulting [lastRefill];
    and [check(cost)] answers the same boolean in both forms. *)
Theorem local_remote_equivalence
    (b : TokenBucket.t) (rb : RedisTokenBucket.t) (now cost : Q)
    (store : gmap string RedisTokenBucket.Hash) (expire : option Q)
    (returnState : bool) (ttl : Q) :
  (forall n, TokenBucket.getTime b n = now) ->
  RedisTokenBucket.getTime rb (RedisTokenBucket.ticks rb) = now ->
  RedisTokenBucket.capacity rb = TokenBucket.capacity b ->
  RedisTokenBucket.refillRate rb = TokenBucket.refillRate b ->
  store !! RedisTokenBucket.key rb
  = Some (RedisTokenBucket.mkHash (Some (TokenBucket.tokens b))
            (Some (TokenBucket.lastRefillTimestamp b)) expire) ->
  (exists reply store',
      RedisTokenBucket.REDIS_TOKEN_BUCKET_LUA (RedisTokenBucket.key rb)
        (RedisTokenBucket.mkArgs (TokenBucket.capacity b)
           (TokenBucket.refillRate b) cost now true returnState ttl) store
      = (Ok reply, store') /\
      (fst (TokenBucket.allow cost b) = Ok true
       <-> RedisTokenBucket.r_allowed reply = 1) /\
      (fst (TokenBucket.allow cost b) <> Ok true
       <-> RedisTokenBucket.r_allowed reply = 0) /\
      RedisTokenBucket.r_tokens reply
      = TokenBucket.tokens (snd (TokenBucket.allow cost b)) /\
      RedisTokenBucket.HMGET (RedisTokenBucket.key rb) store'
      = (Some (TokenBucket.tokens (snd (TokenBucket.allow cost b))),
         Some (TokenBucket.lastRefillTimestamp (snd (TokenBucket.allow cost b)))))
  /\
  fst (fst (RedisTokenBucket.check cost rb store))
  = Ok (fst (TokenBucket.check cost b)).
Proof.
  intros Hclock Hrclock Hcap Hrate Hstore.
  assert (Hread : forall args,
             match fst (RedisTokenBucket.HMGET (RedisTokenBucket.key rb) store) with
             | None => (RedisTokenBucket.a_capacity args,
                        Some (RedisTokenBucket.a_nowMs args))
             | Some t =>
                 (t, snd (RedisTokenBucket.HMGET (RedisTokenBucket.key rb) store))
             end
             = (TokenBucket.tokens b, Some (TokenBucket.lastRefillTimestamp b))).
  { intros args. unfold RedisTokenBucket.HMGET. rewrite Hstore. reflexivity. }
  split.
  - pose proof (script_run (RedisTokenBucket.key rb)
                  (RedisTokenBucket.mkArgs (TokenBucket.capacity b)
                     (TokenBucket.refillRate b) cost now true returnState ttl)
                  store _ _ (Hread _)) as Hscript.
    pose proof (allow_as_script b now cost Hclock) as Hlocal.
    cbn [RedisTokenBucket.a_capacity RedisTokenBucket.a_refillRate
         RedisTokenBucket.a_nowMs RedisTokenBucket.a_cost
         RedisTokenBucket.a_consume RedisTokenBucket.a_returnState] in Hscript.
    destruct (RedisTokenBucket.lua_refill _ _ _ _ _) as [tk1 last1].
    cbv zeta in Hscript, Hlocal. rewrite andb_true_r in Hscript.
    destruct Hscript as (store' & Hrun & Hget & _).
    destruct Hlocal as (Htk & Hlast & Hiff & Hden).
    eexists. exists store'. split; [exact Hrun |].
    cbn [RedisTokenBucket.r_allowed RedisTokenBucket.r_tokens].
    rewrite Htk, Hlast, Hiff.
    destruct (Qgeb tk1 cost); repeat split; try discriminate; try assumption;
      try reflexivity; intros H; now elim H.
  - unfold RedisTokenBucket.check, RedisTokenBucket.runScript,
      RedisTokenBucket.readTime, RedisTokenBucket.EVAL.
    cbn [RedisTokenBucket.getTime RedisTokenBucket.ticks RedisTokenBucket.key
         RedisTokenBucket.capacity RedisTokenBucket.refillRate
         RedisTokenBucket.ttlSeconds].
    rewrite Hrclock, Hcap, Hrate.
    pose proof (script_run (RedisTokenBucket.key rb)
                  (RedisTokenBucket.mkArgs (TokenBucket.capacity b)
                     (TokenBucket.refillRate b) cost now false false
                     (default 0 (RedisTokenBucket.ttlSeconds rb)))
                  store _ _ (Hread _)) as Hscript.
    cbn [RedisTokenBucket.a_capacity RedisTokenBucket.a_refillRate
         RedisTokenBucket.a_nowMs RedisTokenBucket.a_cost
         RedisTokenBucket.a_consume RedisTokenBucket.a_returnState] in Hscript.
    pose proof (refill_as_script b) as Hlocal. rewrite Hclock in Hlocal.
    destruct (RedisTokenBucket.lua_refill _ _ _ _ _) as [tk1 last1].
    injection Hlocal as Htk _.
    cbv zeta in Hscript. destruct Hscript as (store' & -> & _).
    cbn [fst RedisTokenBucket.r_allowed]. unfold TokenBucket.check. cbn [fst].
    rewrite Htk. destruct (Qgeb tk1 cost); reflexivity.
Qed.

Lemma local_remote_equivalence_witness :
  fst (fst (RedisTokenBucket.check 8 Scenario.remote_10_5 Scenario.store_3_of_10))
  = Ok (fst (TokenBucket.check 8 Scenario.local_3_of_10)).
Proof.
  refine (proj2 (local_remote_equivalence Scenario.local_3_of_10
                   Scenario.remote_10_5 1000 8 Scenario.store_3_of_10 None
                   false 0 _ _ _ _ _)).
  - intros n. reflexivity.
  - reflexivity.
  - reflexivity.
  - reflexivity.
  - reflexivity.
Defined.

(** The script on a key that holds nothing: it starts from
    [tokens = capacity] and [lastRefill = now], so no refill applies. *)
Lemma script_first_use (key : string) (args : RedisTokenBucket.ScriptArgs)
    (store : gmap string RedisTokenBucket.Hash) :
  store !! key = None ->
  let capacity := RedisTokenBucket.a_capacity args in
  let cost := RedisTokenBucket.a_cost args in
  let allowed := Qgeb capacity cost in
  let left :=
    if allowed && RedisTokenBucket.a_consume args then capacity - cost
    else capacity in
  exists store',
    RedisTokenBucket.REDIS_TOKEN_BUCKET_LUA key args store
    = (Ok (RedisTokenBucket.mkReply (if allowed then 1 else 0) left
             (if RedisTokenBucket.a_returnState args
              then Some (RedisTokenBucket.a_nowMs args) else None)), store') /\
    RedisTokenBucket.HMGET key store'
    = (Some left, Some (RedisTokenBucket.a_nowMs args)).
Proof.
  intros Hnone. cbv zeta.
  assert (Hread :
            match fst (RedisTokenBucket.HMGET key store) with
            | None => (RedisTokenBucket.a_capacity args,
                       Some (RedisTokenBucket.a_nowMs args))
            | Some t => (t, snd (RedisTokenBucket.HMGET key store))
            end
            = (RedisTokenBucket.a_capacity args,
               Some (RedisTokenBucket.a_nowMs args))).
  { unfold RedisTokenBucket.HMGET. rewrite Hnone. reflexivity. }
  pose proof (script_run key args store _ _ Hread) as Hscript.
  unfold RedisTokenBucket.lua_refill in Hscript.
  assert (Hz : Qgtb (RedisTokenBucket.a_nowMs args - RedisTokenBucket.a_nowMs args) 0
               = false) by (apply Qgtb_false; lra).
  rewrite Hz in Hscript. cbv zeta in Hscript.
  destruct Hscript as (store' & Hrun & Hget & _).
  exists store'. split; assumption.
Qed.

(** C4: run against a key with no stored state, the script initialises
    [tokens = capacity] and [lastRefill = now] before it refills and decides;
    so the first [allow(cost)] on a key never seen, with [cost <= capacity],
    is granted, and leaves [capacity - cost] tokens stamped [now]. *)
Theorem never_seen_key_starts_full
    (rb : RedisTokenBucket.t) (cost : Q)
    (store : gmap string RedisTokenBucket.Hash) :
  store !! RedisTokenBucket.key rb = None ->
  cost <= RedisTokenBucket.capacity rb ->
  let now := RedisTokenBucket.getTime rb (RedisTokenBucket.ticks rb) in
  (forall (consume returnState : bool) (ttl : Q),
      exists store',
        RedisTokenBucket.REDIS_TOKEN_BUCKET_LUA (RedisTokenBucket.key rb)
          (RedisTokenBucket.mkArgs (RedisTokenBucket.capacity rb)
             (RedisTokenBucket.refillRate rb) cost now consume returnState ttl)
          store
        = (Ok (RedisTokenBucket.mkReply 1
                 (if consume then RedisTokenBucket.capacity rb - cost
                  else RedisTokenBucket.capacity rb)
                 (if returnState then Some now else None)), store') /\
        RedisTokenBucket.HMGET (RedisTokenBucket.key rb) store'
        = (Some (if consume then RedisTokenBucket.capacity rb - cost
                 else RedisTokenBucket.capacity rb), Some now)) /\
  fst (fst (RedisTokenBucket.allow cost rb store)) = Ok true /\
  RedisTokenBucket.HMGET (RedisTokenBucket.key rb)
    (snd (RedisTokenBucket.allow cost rb store))
  = (Some (RedisTokenBucket.capacity rb - cost), Some now).
Proof.
  intros Hnone Hcost now.
  assert (Hall : Qgeb (RedisTokenBucket.capacity rb) cost = true)
    by (apply Qgeb_true; exact Hcost).
  assert (Hscript : forall consume returnState ttl,
             exists store',
               RedisTokenBucket.REDIS_TOKEN_BUCKET_LUA (RedisTokenBucket.key rb)
                 (RedisTokenBucket.mkArgs (RedisTokenBucket.capacity rb)
                    (RedisTokenBucket.refillRate rb) cost now consume
                    returnState ttl) store
               = (Ok (RedisTokenBucket.mkReply 1
                        (if consume then RedisTokenBucket.capacity rb - cost
                         else RedisTokenBucket.capacity rb)
                        (if returnState then Some now else None)), store') /\
               RedisTokenBucket.HMGET (RedisTokenBucket.key rb) store'
               = (Some (if consume then RedisTokenBucket.capacity rb - cost
                        else RedisTokenBucket.capacity rb), Some now)).
  { intros consume returnState ttl.
    pose proof (script_first_use (RedisTokenBucket.key rb)
                  (RedisTokenBucket.mkArgs (RedisTokenBucket.capacity rb)
                     (RedisTokenBucket.refillRate rb) cost now consume
                     returnState ttl) store Hnone) as H.
    cbn [RedisTokenBucket.a_capacity RedisTokenBucket.a_cost
         RedisTokenBucket.a_consume RedisTokenBucket.a_returnState
         RedisTokenBucket.a_nowMs] in H.
    cbv zeta in H. rewrite Hall in H. cbn [andb] in H. exact H. }
  split; [exact Hscript |].
  unfold RedisTokenBucket.allow, RedisTokenBucket.runScript,
    RedisTokenBucket.readTime, RedisTokenBucket.incr_totalRequests,
    RedisTokenBucket.EVAL.
  cbn [RedisTokenBucket.getTime RedisTokenBucket.ticks RedisTokenBucket.key
       RedisTokenBucket.capacity RedisTokenBucket.refillRate
       RedisTokenBucket.ttlSeconds RedisTokenBucket.onRateLimit].
  fold now.
  destruct (Hscript true
              (bool_decide (is_Some (RedisTokenBucket.onRateLimit rb)))
              (default 0 (RedisTokenBucket.ttlSeconds rb)))
    as (store' & -> & Hget).
  cbn [RedisTokenBucket.r_allowed fst snd]. split; [reflexivity | exact Hget].
Qed.

Lemma never_seen_key_starts_full_witness :
  fst (fst (RedisTokenBucket.allow 10 Scenario.remote_10_5 ∅)) = Ok true.
Proof.
  refine (proj1 (proj2 (never_seen_key_starts_full Scenario.remote_10_5 10 ∅ _ _))).
  - reflexivity.
  - cbn. lra.
Defined.

(** ** The claims about hooks *)

Lemma get_onRateLimit (now : Q) (key : string) (m : TokenBucketManager.t)
    (h : TokenBucketManager.Heap) :
  TokenBucketManager.onRateLimit (snd (fst (TokenBucketManager.get now key m h)))
  = TokenBucketManager.onRateLimit m.
Proof.
  unfold TokenBucketManager.get.
  destruct (TokenBucketManager.buckets m !! key) as [entry |];
    destruct (TokenBucketManager.ttlMs m) as [ttl |];
    try destruct (Qgtb (now - TokenBucketManager.lastAccess entry) ttl);
    match goal with |- context [?bs !! key] => destruct (bs !! key) end;
    reflexivity.
Qed.

Lemma deref_store (r : nat) (b : TokenBucket.t) (h : TokenBucketManager.Heap) :
  TokenBucketManager.deref r (TokenBucketManager.store r b h) = b.
Proof.
  unfold TokenBucketManager.deref, TokenBucketManager.store. cbn.
  apply lookup_total_insert_eq.
Qed.

(** C5, as stated: a hook that throws does prevent [allow] from returning
    false. With one drained bucket whose hook throws, [allow(1)] ends with the
    hook's exception; and so does the registry's [allow] when the
    registry-level hook throws. *)
Lemma throwing_hook_aborts_allow :
  fst (TokenBucket.allow 1
         (Scenario.drained_1_1 (Scenario.fixed 0) (Some Scenario.failing_hook)))
  = Throw (HookFailure "boom") /\
  fst (fst (TokenBucketManager.allow 0 "a" 1 Scenario.manager_failing_hook
              Scenario.empty_heap))
  = Throw (HookFailure "boom").
Proof. split; vm_compute; reflexivity. Qed.

(** C5, amended: when a registered hook throws on a denied [allow], the
    exception reaches the caller of [allow] in place of the result false.
    The bucket is left as the denial leaves it when the hook returns:
    [capacity] and [refillRate] untouched, [tokens] and [lastRefill] as
    refilled and within bounds, [totalRequests] and [limited] one higher,
    [allowed] unchanged. The same holds for the registry-level hook, which
    runs after the bucket's own [allow] has answered false. *)
Theorem throwing_hook_propagates :
  (forall (b : TokenBucket.t) (cost : Q) (hook : TokenBucket.Hook) (e : string),
      TokenBucket.onRateLimit b = Some hook ->
      let b1 := TokenBucket.refill (TokenBucket.incr_totalRequests b) in
      TokenBucket.tokens b1 < cost ->
      let sb := TokenBucket.getState (TokenBucket.incr_limitedRequests b1) in
      hook (fst sb) = HookThrows e ->
      TokenBucket.allow cost b = (Throw (HookFailure e), snd sb) /\
      TokenBucket.capacity (snd sb) = TokenBucket.capacity b /\
      TokenBucket.refillRate (snd sb) = TokenBucket.refillRate b /\
      TokenBucket.tokens (snd sb)
      = TokenBucket.tokens
          (TokenBucket.refill (TokenBucket.incr_limitedRequests b1)) /\
      TokenBucket.lastRefillTimestamp (snd sb)
      = TokenBucket.lastRefillTimestamp
          (TokenBucket.refill (TokenBucket.incr_limitedRequests b1)) /\
      TokenBucket.totalRequests (snd sb) = S (TokenBucket.totalRequests b) /\
      TokenBucket.allowedRequests (snd sb) = TokenBucket.allowedRequests b /\
      TokenBucket.limitedRequests (snd sb) = S (TokenBucket.limitedRequests b) /\
      (Calls.healthy b -> Calls.healthy (snd sb)))
  /\
  (forall (now : Q) (key : string) (cost : Q) (m : TokenBucketManager.t)
          (h : TokenBucketManager.Heap) (hook : TokenBucketManager.Hook)
          (e : string),
      TokenBucketManager.onRateLimit m = Some hook ->
      let '(r, m1, h1) := TokenBucketManager.get now key m h in
      let '(res, b') := TokenBucket.allow cost (TokenBucketManager.deref r h1) in
      let sb := TokenBucket.getState b' in
      res = Ok false ->
      hook key (fst sb) = HookThrows e ->
      TokenBucketManager.allow now key cost m h
      = (Throw (HookFailure e), m1,
         TokenBucketManager.store r (snd sb)
           (TokenBucketManager.store r b' h1))).
Proof.
  split.
  - intros b cost hook e Hhook b1 Hlt sb Hthrow.
    pose proof (refill_frame (TokenBucket.incr_totalRequests b))
      as (Hc1 & Hr1 & _ & _ & Hh1 & Ht1 & Ha1 & Hl1).
    fold b1 in Hc1, Hr1, Hh1, Ht1, Ha1, Hl1.
    pose proof (refill_frame (TokenBucket.incr_limitedRequests b1))
      as (Hc2 & Hr2 & _ & _ & _ & Ht2 & Ha2 & Hl2).
    split.
    + destruct (allow_cases cost b)
        as [(Hle & _) | [(_ & Hnone & _) | (_ & hook' & Hhook' & E)]];
        fold b1 in Hle || fold b1 in Hnone || fold b1 in Hhook'.
      * lra.
      * rewrite Hh1 in Hnone. cbn in Hnone. congruence.
      * fold b1 in E. fold sb in E. cbv zeta in E.
        rewrite Hh1 in Hhook'. cbn in Hhook'.
        assert (hook' = hook) by congruence. subst hook'.
        destruct E as [(Hret & _) | (e' & He' & ->)]; [congruence |].
        rewrite Hthrow in He'. injection He' as <-. reflexivity.
    + change (snd sb) with (TokenBucket.refill (TokenBucket.incr_limitedRequests b1)).
      rewrite Hc2, Hr2, Ht2, Ha2, Hl2. bucket_fields.
      rewrite Hc1, Hr1, Ht1, Ha1, Hl1. bucket_fields.
      do 7 (split; [reflexivity |]).
      intros Hb. apply refill_healthy.
      apply (refill_healthy (TokenBucket.incr_totalRequests b)). exact Hb.
  - intros now key cost m h hook e Hhook.
    pose proof (get_onRateLimit now key m h) as Hget.
    unfold TokenBucketManager.allow.
    destruct (TokenBucketManager.get now key m h) as [[r m1] h1].
    cbn [fst snd] in Hget.
    destruct (TokenBucket.allow cost (TokenBucketManager.deref r h1)) as [res b'].
    cbv zeta. intros -> Hthrow. cbn [negb].
    rewrite Hget, Hhook, deref_store. revert Hthrow.
    destruct (TokenBucket.getState b') as [s b'']. cbn [fst snd].
    now intros ->.
Qed.

Lemma throwing_hook_propagates_witness :
  TokenBucket.allow 1
    (Scenario.drained_1_1 (Scenario.fixed 0) (Some Scenario.failing_hook))
  = (Throw (HookFailure "boom"),
     TokenBucket.mk 1 1 0 0 (Scenario.fixed 0) 2%nat
       (Some Scenario.failing_hook) 1%nat O 1%nat).
Proof.
  refine (proj1 (proj1 throwing_hook_propagates
                   (Scenario.drained_1_1 (Scenario.fixed 0)
                      (Some Scenario.failing_hook))
                   1 Scenario.failing_hook "boom" eq_refl _ eq_refl)).
  vm_compute. reflexivity.
Defined.

(** ** The registry *)

Section Cleanup.
Import TokenBucketManager.
Variables (now ttl : Q).

Lemma cleanup_fold_None (l : list (string * Entry)) (acc : gmap string Entry)
    (k : string) :
  acc !! k = None -> foldl (cleanup_step now ttl) acc l !! k = None.
Proof.
  revert acc. induction l as [| [k' e'] l IH]; intros acc H; cbn; [exact H |].
  apply IH. unfold cleanup_step. cbn [fst snd].
  destruct (Qgtb (now - lastAccess e') ttl); [| exact H].
  destruct (decide (k' = k)) as [-> | Hne].
  - apply lookup_delete_eq.
  - rewrite lookup_delete_ne by exact Hne. exact H.
Qed.

Lemma cleanup_fold_kept (l : list (string * Entry)) (acc : gmap string Entry)
    (k : string) :
  (forall e, (k, e) ∈ l -> Qgtb (now - lastAccess e) ttl = false) ->
  foldl (cleanup_step now ttl) acc l !! k = acc !! k.
Proof.
  revert acc. induction l as [| [k' e'] l IH]; intros acc H; cbn; [reflexivity |].
  rewrite IH.
  - unfold cleanup_step. cbn [fst snd].
    destruct (Qgtb (now - lastAccess e') ttl) eqn:E; [| reflexivity].
    destruct (decide (k' = k)) as [-> | Hne].
    + rewrite (H e') in E by (left). discriminate.
    + now rewrite lookup_delete_ne.
  - intros e He. apply H. now right.
Qed.

Lemma cleanup_fold_removed (l : list (string * Entry)) (acc : gmap string Entry)
    (k : string) (e : Entry) :
  (k, e) ∈ l -> Qgtb (now - lastAccess e) ttl = true ->
  foldl (cleanup_step now ttl) acc l !! k = None.
Proof.
  revert acc. induction l as [| [k' e'] l IH]; intros acc Hin Hexp.
  - inversion Hin.
  - cbn. apply elem_of_cons in Hin as [[= <- <-] | Hin].
    + apply cleanup_fold_None. unfold cleanup_step. cbn [fst snd].
      rewrite Hexp. apply lookup_delete_eq.
    + now apply IH.
Qed.

(** What [cleanup] keeps: the entries that have not outlived the TTL. *)
Lemma cleanup_lookup (m : t) (k : string) (e : Entry) :
  ttlMs m = Some ttl ->
  buckets (cleanup now m) !! k = Some e
  <-> buckets m !! k = Some e /\ now - lastAccess e <= ttl.
Proof.
  intros Httl. unfold cleanup. rewrite Httl. cbn [buckets set_buckets].
  destruct (buckets m !! k) as [e0 |] eqn:Hk.
  - destruct (Qgtb (now - lastAccess e0) ttl) eqn:Hexp.
    + rewrite (cleanup_fold_removed _ _ k e0);
        [| now apply elem_of_map_to_list | exact Hexp].
      apply Qgtb_true in Hexp.
      split; [discriminate |]. intros [[= <-] Hle]. lra.
    + rewrite cleanup_fold_kept.
      * rewrite Hk. apply Qgtb_false in Hexp.
        split; [intros [= <-]; now split | now intros [? _]].
      * intros e' He'. apply elem_of_map_to_list in He'.
        rewrite Hk in He'. now injection He' as <-.
  - rewrite cleanup_fold_kept.
    + rewrite Hk. split; [discriminate | now intros [? _]].
    + intros e' He'. apply elem_of_map_to_list in He'. congruence.
Qed.

End Cleanup.

(** C8: with a TTL configured, resolving a key whose entry is within the TTL
    returns the bucket already there and stamps the entry with [now]; when
    the entry has outlived the TTL it is dropped and the factory builds a new
    bucket, another object than the one dropped. [cleanup] keeps exactly the
    entries within the TTL. With [ttlMs = 1000]: key "a" resolved (and
    drained) at [t = 0] and resolved again at [t = 2000] yields a new, full
    bucket; [cleanup] at [t = 500] keeps the entry, at [t = 1500] removes it. *)
Theorem registry_ttl :
  (forall (now : Q) (key : string) (m : TokenBucketManager.t)
          (h : TokenBucketManager.Heap) (e : TokenBucketManager.Entry) (ttl : Q),
      TokenBucketManager.buckets m !! key = Some e ->
      TokenBucketManager.ttlMs m = Some ttl ->
      (now - TokenBucketManager.lastAccess e <= ttl ->
       TokenBucketManager.get now key m h
       = (TokenBucketManager.bucket e,
          TokenBucketManager.set_buckets
            (<[key := TokenBucketManager.mkEntry (TokenBucketManager.bucket e) now]>
               (TokenBucketManager.buckets m)) m,
          h)) /\
      (ttl < now - TokenBucketManager.lastAccess e ->
       let r := TokenBucketManager.nextRef h in
       TokenBucketManager.get now key m h
       = (r,
          TokenBucketManager.set_buckets
            (<[key := TokenBucketManager.mkEntry r now]>
               (delete key (TokenBucketManager.buckets m))) m,
          TokenBucketManager.mkHeap
            (<[r := TokenBucketManager.createBucket m r key]>
               (TokenBucketManager.objects h)) (S r)) /\
       (TokenBucketManager.refs_allocated m h ->
        r <> TokenBucketManager.bucket e)))
  /\
  (forall (now ttl : Q) (m : TokenBucketManager.t) (k : string)
          (e : TokenBucketManager.Entry),
      TokenBucketManager.ttlMs m = Some ttl ->
      TokenBucketManager.buckets (TokenBucketManager.cleanup now m) !! k = Some e
      <-> TokenBucketManager.buckets m !! k = Some e /\
          now - TokenBucketManager.lastAccess e <= ttl)
  /\
  (let '(drained, m1, h1) :=
     TokenBucketManager.allow 0 "a" 10 Scenario.manager_ttl_1000
       Scenario.empty_heap in
   let '(r1, _, h1') := TokenBucketManager.get 500 "a" m1 h1 in
   let '(r2, m2, h2) := TokenBucketManager.get 2000 "a" m1 h1 in
   drained = Ok true /\
   TokenBucketManager.buckets m1 !! "a"%string
   = Some (TokenBucketManager.mkEntry 0%nat 0) /\
   TokenBucket.tokens (TokenBucketManager.deref 0%nat h1) == 0 /\
   r1 = 0%nat /\
   r2 = 1%nat /\
   TokenBucketManager.deref r2 h2
   = Scenario.bucket_10_5 0 (Scenario.fixed 0) /\
   TokenBucketManager.buckets m2 !! "a"%string
   = Some (TokenBucketManager.mkEntry 1%nat 2000) /\
   TokenBucketManager.buckets (TokenBucketManager.cleanup 500 m1) !! "a"%string
   = Some (TokenBucketManager.mkEntry 0%nat 0) /\
   TokenBucketManager.buckets (TokenBucketManager.cleanup 1500 m1) !! "a"%string
   = None).
Proof.
  split; [| split].
  - intros now key m h e ttl Hk Httl. split.
    + intros Hle. apply Qgtb_false in Hle.
      unfold TokenBucketManager.get. rewrite Hk, Httl, Hle, Hk. reflexivity.
    + intros Hlt r. apply Qgtb_true in Hlt.
      unfold TokenBucketManager.get. rewrite Hk, Httl, Hlt.
      cbn [TokenBucketManager.buckets TokenBucketManager.set_buckets
           TokenBucketManager.createBucket].
      rewrite lookup_delete_eq. split; [reflexivity |].
      intros Hwf. specialize (Hwf key e Hk). subst r. lia.
  - intros now ttl m k e. apply cleanup_lookup.
  - vm_compute. repeat split; try reflexivity.
Qed.

Lemma registry_ttl_witness :
  let m1 := snd (fst (TokenBucketManager.get 0 "a" Scenario.manager_ttl_1000
                        Scenario.empty_heap)) in
  let h1 := snd (TokenBucketManager.get 0 "a" Scenario.manager_ttl_1000
                   Scenario.empty_heap) in
  fst (fst (TokenBucketManager.get 2000 "a" m1 h1)) = 1%nat.
Proof.
  intros m1 h1.
  refine (f_equal (fun x => fst (fst x))
            (proj1 (proj2 (proj1 registry_ttl 2000 "a"%string m1 h1
                             (TokenBucketManager.mkEntry 0%nat 0) 1000 _ _) _))).
  - vm_compute. reflexivity.
  - reflexivity.
  - vm_compute. reflexivity.
Defined.

(** ** Blocking acquire *)

(** The only exception [allow] can end with is the one its hook threw. *)
Lemma allow_throws (cost : Q) (b : TokenBucket.t) (e : Exn) :
  fst (TokenBucket.allow cost b) = Throw e -> exists msg, e = HookFailure msg.
Proof.
  unfold TokenBucket.allow.
  destruct (Qgeb _ cost); [discriminate |].
  destruct (TokenBucket.onRateLimit _) as [hook |]; [| discriminate].
  destruct (TokenBucket.getState _) as [s b2].
  destruct (hook s) as [| msg]; cbn [fst]; [discriminate |].
  intros [= <-]. now exists msg.
Qed.

Section AcquireLoop.
Import TokenBucket Acquire.
Variables (cost : Q) (timeoutMs : option Q) (start : Q).

(** When one pass ends in a timeout. *)
Lemma iteration_timeout (b b' : t) (c : Q) :
  iteration cost timeoutMs start b = (Some (Throw (TimeoutWaiting c)), b')
  <-> exists b1 wait b2 timeout,
      allow cost b = (Ok false, b1) /\
      timeToRefill cost b1 = (wait, b2) /\
      js_leb wait 0 = false /\
      timeoutMs = Some timeout /\
      js_add_gtb (getTime b2 (ticks b2) - start) wait timeout = true /\
      c = cost /\ b' = snd (readTime b2).
Proof.
  split.
  - unfold iteration.
    destruct (allow cost b) as [[[|] | e] b1] eqn:Ha.
    + discriminate.
    + destruct (timeToRefill cost b1) as [wait b2] eqn:Hw.
      destruct (js_leb wait 0) eqn:Hl; [discriminate |].
      destruct timeoutMs as [timeout |]; [| discriminate].
      cbn [readTime].
      destruct (js_add_gtb (getTime b2 (ticks b2) - start) wait timeout) eqn:Hg;
        [| discriminate].
      intros [= <- <-]. exists b1, wait, b2, timeout. now repeat split.
    + intros [= He _].
      destruct (allow_throws cost b e) as [msg Hmsg];
        [now rewrite Ha | congruence].
  - intros (b1 & wait & b2 & timeout & Ha & Hw & Hl & -> & Hg & -> & ->).
    unfold iteration. rewrite Ha, Hw, Hl. cbn [readTime]. rewrite Hg.
    reflexivity.
Qed.

(** The loop times out exactly when some pass does, all earlier passes
    having gone round again. *)
Lemma loop_timeout (fuel : nat) (b b' : t) (c : Q) :
  loop fuel cost timeoutMs start b = (Some (Throw (TimeoutWaiting c)), b')
  <-> exists n bn,
      (n < fuel)%nat /\
      retries n cost timeoutMs start b = Some bn /\
      iteration cost timeoutMs start bn
      = (Some (Throw (TimeoutWaiting c)), b').
Proof.
  revert b. induction fuel as [| fuel IH]; intros b.
  - cbn. split; [discriminate | intros (? & ? & ? & _); lia].
  - cbn [loop].
    destruct (iteration cost timeoutMs start b) as [[r |] b1] eqn:Hi.
    + split.
      * intros [= -> ->]. exists O, b. cbn. split; [lia | now split].
      * intros (n & bn & _ & Hr & Hn). destruct n as [| n].
        -- cbn in Hr. injection Hr as <-. rewrite Hi in Hn. exact Hn.
        -- cbn in Hr. rewrite Hi in Hr. discriminate.
    + rewrite IH. split.
      * intros (n & bn & Hlt & Hr & Hn). exists (S n), bn.
        split; [lia |]. split; [| exact Hn]. cbn. now rewrite Hi.
      * intros (n & bn & Hlt & Hr & Hn). destruct n as [| n].
        -- cbn in Hr. injection Hr as <-. rewrite Hi in Hn. discriminate.
        -- cbn in Hr. rewrite Hi in Hr. exists n, bn.
           split; [lia | now split].
Qed.

End AcquireLoop.

Lemma acquire_unfold (fuel : nat) (cost : Q) (timeoutMs : option Q)
    (b : TokenBucket.t) :
  Acquire.acquire fuel cost timeoutMs b
  = let start := TokenBucket.getTime b (TokenBucket.ticks b) in
    let b0 := snd (TokenBucket.readTime b) in
    if Qle_bool (TokenBucket.refillRate b0) 0 then
      if negb (fst (TokenBucket.check cost b0))
      then (Some (Throw CannotAcquire), snd (TokenBucket.check cost b0))
      else Acquire.loop fuel cost timeoutMs start (snd (TokenBucket.check cost b0))
    else Acquire.loop fuel cost timeoutMs start b0.
Proof. reflexivity. Qed.

(** C6, as stated: the condition of the claim can hold without a timeout.
    Capacity 1, rate 1, no token at [lastRefill = 0], deadline 100 ms; the
    clock answers 0 on entry, 500 to the refill inside [allow] (denied, half a
    token) and 1000 from then on. [timeToRefill(1)] then finds the token and
    answers 0: the elapsed 1000 ms plus that wait exceed 100 ms, yet the loop
    goes round again and [acquire] succeeds. *)
Lemma deadline_exceeded_without_timeout :
  Acquire.spec_deadline_exceeded 1 (Some 100) 0
    (snd (TokenBucket.readTime (Scenario.drained_1_1 Scenario.stepping None)))
  = true /\
  fst (Acquire.acquire 5 1 (Some 100)
         (Scenario.drained_1_1 Scenario.stepping None))
  = Some (Ok tt).
Proof. split; vm_compute; reflexivity. Qed.

(** C6, amended: [acquire(cost, timeoutMs)] fails with a timeout error
    exactly when it gets past the entry test and, in some pass of its loop,
    [allow(cost)] has failed, the wait computed by [timeToRefill(cost)] is
    positive (not [<= 0]), a [timeoutMs] is set, and the time elapsed since
    entry plus that wait exceeds [timeoutMs]. With capacity 1, rate 1, no
    token at [t = 0] and a clock standing at 0, [acquire(1, 100)] fails with
    the timeout error in its first pass. *)
Theorem acquire_timeout_spec :
  (forall (fuel : nat) (cost : Q) (timeoutMs : option Q)
          (b b' : TokenBucket.t) (c : Q),
      let start := TokenBucket.getTime b (TokenBucket.ticks b) in
      let b0 := snd (TokenBucket.readTime b) in
      let degenerate := Qle_bool (TokenBucket.refillRate b0) 0 in
      let bs := if degenerate then snd (TokenBucket.check cost b0) else b0 in
      Acquire.acquire fuel cost timeoutMs b
      = (Some (Throw (TimeoutWaiting c)), b')
      <->
      (degenerate = true -> fst (TokenBucket.check cost b0) = true) /\
      exists n bn b1 wait b2 timeout,
        (n < fuel)%nat /\
        Acquire.retries n cost timeoutMs start bs = Some bn /\
        TokenBucket.allow cost bn = (Ok false, b1) /\
        TokenBucket.timeToRefill cost b1 = (wait, b2) /\
        js_leb wait 0 = false /\
        timeoutMs = Some timeout /\
        js_add_gtb (TokenBucket.getTime b2 (TokenBucket.ticks b2) - start)
          wait timeout = true /\
        c = cost /\ b' = snd (TokenBucket.readTime b2))
  /\
  (forall fuel : nat,
      fst (Acquire.acquire (S fuel) 1 (Some 100)
             (Scenario.drained_1_1 (Scenario.fixed 0) None))
      = Some (Throw (TimeoutWaiting 1))).
Proof.
  split.
  - intros fuel cost timeoutMs b b' c start b0 degenerate bs.
    assert (Hloop : forall bx,
               Acquire.loop fuel cost timeoutMs start bx
               = (Some (Throw (TimeoutWaiting c)), b')
               <-> exists n bn b1 wait b2 timeout,
                   (n < fuel)%nat /\
                   Acquire.retries n cost timeoutMs start bx = Some bn /\
                   TokenBucket.allow cost bn = (Ok false, b1) /\
                   TokenBucket.timeToRefill cost b1 = (wait, b2) /\
                   js_leb wait 0 = false /\
                   timeoutMs = Some timeout /\
                   js_add_gtb
                     (TokenBucket.getTime b2 (TokenBucket.ticks b2) - start)
                     wait timeout = true /\
                   c = cost /\ b' = snd (TokenBucket.readTime b2)).
    { intros bx. rewrite loop_timeout. split.
      - intros (n & bn & Hlt & Hr & Hi).
        apply iteration_timeout in Hi
          as (b1 & wait & b2 & timeout & Ha & Hw & Hl & Ht & Hg & Hc & Hb).
        exists n, bn, b1, wait, b2, timeout. tauto.
      - intros (n & bn & b1 & wait & b2 & timeout & Hlt & Hr & Hrest).
        exists n, bn. split; [exact Hlt |]. split; [exact Hr |].
        apply iteration_timeout. exists b1, wait, b2, timeout. exact Hrest. }
    rewrite acquire_unfold. cbv zeta. fold b0. fold start. fold degenerate.
    subst bs. destruct degenerate.
    + destruct (fst (TokenBucket.check cost b0)); cbn [negb].
      * rewrite Hloop. split; [intros H; split; [reflexivity | exact H] | tauto].
      * split; [discriminate |]. intros [H _]. specialize (H eq_refl).
        discriminate.
    + rewrite Hloop. split; [intros H; split; [discriminate | exact H] | tauto].
  - intros fuel. reflexivity.
Qed.

Lemma acquire_timeout_spec_witness :
  fst (Acquire.acquire 3 1 (Some 100)
         (Scenario.drained_1_1 (Scenario.fixed 0) None))
  = Some (Throw (TimeoutWaiting 1)).
Proof. exact (proj2 acquire_timeout_spec 2%nat). Defined.

(** * Further properties of the in-memory bucket *)

(** ** Tokens only leave through a granted [allow] *)

Section TokenFlow.
Import TokenBucket.


Lemma refill_lastRefill_mono (b : t) :
  lastRefillTimestamp b <= lastRefillTimestamp (refill b).
Proof.
  destruct (refill_cases b) as [(He & _ & ->) | (_ & _ & ->)]; [| lra].
  pose proof (proj1 (div1000_pos _) He). lra.
Qed.


(** The three buckets [allow] can leave, with what was granted. *)
Lemma allow_outcomes (cost : Q) (b : t) :
  let b1 := refill (incr_totalRequests b) in
  (cost <= tokens b1 /\ fst (allow cost b) = Ok true /\
   snd (allow cost b) = incr_allowedRequests (set_tokens (tokens b1 - cost) b1))
  \/
  (tokens b1 < cost /\ fst (allow cost b) <> Ok true /\
   (snd (allow cost b) = incr_limitedRequests b1 \/
    snd (allow cost b) = refill (incr_limitedRequests b1))).
Proof.
  intros b1. unfold allow. fold b1.
  destruct (Qgeb (tokens b1) cost) eqn:E.
  - left. apply Qgeb_true in E. now repeat split.
  - right. apply Qgeb_false in E. split; [exact E |].
    destruct (onRateLimit _) as [hook |].
    + unfold getState.
      destruct (hook _); cbn [fst snd]; (split; [discriminate | now right]).
    + cbn [fst snd]. split; [discriminate | now left].
Qed.


End TokenFlow.





(** ** How much a sequence of calls can be granted *)

Section RateBound.
Import TokenBucket.




Lemma step_lastRefill_mono (b : t) (o : Calls.Op) :
  Ledger.is_reset o = false ->
  lastRefillTimestamp b <= lastRefillTimestamp (Calls.step b o).
Proof.
  intros Hnr.
  destruct o as [cost | cost | cost | |]; cbn [Calls.step]; try discriminate.
  - pose proof (refill_lastRefill_mono (incr_totalRequests b)) as H1.
    revert H1. bucket_fields. intros H1.
    destruct (allow_outcomes cost b) as [(_ & _ & ->) | (_ & _ & [-> | ->])].
    + bucket_fields. exact H1.
    + bucket_fields. exact H1.
    + pose proof (refill_lastRefill_mono
                    (incr_limitedRequests (refill (incr_totalRequests b)))) as H2.
      revert H2. bucket_fields. intros H2. lra.
  - rewrite check_snd. apply refill_lastRefill_mono.
  - rewrite timeToRefill_snd. apply refill_lastRefill_mono.
  - rewrite getState_snd. apply refill_lastRefill_mono.
Qed.

End RateBound.

(** X4: whatever the clock does, even when it runs backwards, [allow],
    [check], [timeToRefill] and [getState] never move [lastRefill] back:
    along any sequence of such calls it can only grow. Only [reset], which
    stamps the bucket with the clock's reading, can lower it. *)
Theorem lastRefill_never_moves_back (ops : list Calls.Op) (b : TokenBucket.t) :
  forallb (fun o => negb (Ledger.is_reset o)) ops = true ->
  TokenBucket.lastRefillTimestamp b
  <= TokenBucket.lastRefillTimestamp (Calls.run ops b).
Proof.
  revert b. induction ops as [| o ops IH]; intros b Hnr; cbn.
  - lra.
  - cbn in Hnr. apply andb_true_iff in Hnr as [Ho Hops].
    apply negb_true_iff in Ho.
    pose proof (step_lastRefill_mono b o Ho).
    specialize (IH (Calls.step b o) Hops). unfold Calls.run in IH. lra.
Qed.

Lemma lastRefill_never_moves_back_witness :
  TokenBucket.lastRefillTimestamp Scenario.local_3_of_10
  <= TokenBucket.lastRefillTimestamp
       (Calls.run [Calls.Allow 2; Calls.GetState; Calls.Check 9]
          Scenario.local_3_of_10).
Proof. apply lastRefill_never_moves_back. reflexivity. Defined.



(** ** How [acquire] ends *)

Section AcquireEnds.
Import TokenBucket Acquire.

Lemma iteration_throws (cost : Q) (timeoutMs : option Q) (start : Q)
    (b b' : t) (e : Exn) :
  iteration cost timeoutMs start b = (Some (Throw e), b') ->
  (e = TimeoutWaiting cost /\ timeoutMs <> None) \/
  exists msg, e = HookFailure msg.
Proof.
  unfold iteration.
  destruct (allow cost b) as [[[|] | e0] b1] eqn:Ha.
  - discriminate.
  - destruct (timeToRefill cost b1) as [wait b2].
    destruct (js_leb wait 0); [discriminate |].
    destruct timeoutMs as [timeout |]; [| discriminate].
    cbn [readTime].
    destruct (js_add_gtb _ wait timeout); [| discriminate].
    intros [= <- _]. left. split; [reflexivity | discriminate].
  - intros [= <- _]. right. apply (allow_throws cost b). now rewrite Ha.
Qed.

Lemma loop_throws (fuel : nat) (cost : Q) (timeoutMs : option Q) (start : Q)
    (b b' : t) (e : Exn) :
  loop fuel cost timeoutMs start b = (Some (Throw e), b') ->
  (e = TimeoutWaiting cost /\ timeoutMs <> None) \/
  exists msg, e = HookFailure msg.
Proof.
  revert b. induction fuel as [| fuel IH]; intros b; cbn [loop].
  - discriminate.
  - destruct (iteration cost timeoutMs start b) as [[r |] b1] eqn:Hi.
    + intros [= -> ->]. exact (iteration_throws _ _ _ _ _ _ Hi).
    + apply IH.
Qed.

Lemma refill_rate_zero (b : t) :
  refillRate b == 0 -> tokens b <= capacity b -> tokens (refill b) == tokens b.
Proof.
  intros Hz Hcap.
  destruct (refill_cases b) as [(_ & -> & _) | (_ & -> & _)]; [| reflexivity].
  set (el := (getTime b (ticks b) - lastRefillTimestamp b) / 1000).
  assert (E : tokens b + el * refillRate b == tokens b) by (rewrite Hz; ring).
  assert (Hle : tokens b + el * refillRate b <= capacity b) by lra.
  unfold Math_min. rewrite (Q.min_l _ _ Hle). exact E.
Qed.


End AcquireEnds.

(** X7: [acquire] can fail in three ways only: with the permanent-shortage
    error, with the timeout error for its own [cost] (and then a [timeoutMs]
    was given), or with what the bucket's hook threw. Without a [timeoutMs]
    it never fails with a timeout. *)
Theorem acquire_failures (fuel : nat) (cost : Q) (timeoutMs : option Q)
    (b b' : TokenBucket.t) (e : Exn) :
  Acquire.acquire fuel cost timeoutMs b = (Some (Throw e), b') ->
  e = CannotAcquire \/
  (e = TimeoutWaiting cost /\ timeoutMs <> None) \/
  exists msg, e = HookFailure msg.
Proof.
  rewrite acquire_unfold. cbv zeta.
  destruct (Qle_bool _ 0).
  - destruct (negb _).
    + intros [= <- _]. now left.
    + intros H. right. exact (loop_throws _ _ _ _ _ _ _ H).
  - intros H. right. exact (loop_throws _ _ _ _ _ _ _ H).
Qed.

Lemma acquire_failures_witness :
  TimeoutWaiting 1 = CannotAcquire \/
  (TimeoutWaiting 1 = TimeoutWaiting 1 /\ Some 100 <> None) \/
  exists msg, TimeoutWaiting 1 = HookFailure msg.
Proof.
  refine (acquire_failures 1 1 (Some 100)
            (Scenario.drained_1_1 (Scenario.fixed 0) None)
            (TokenBucket.mk 1 1 0 0 (Scenario.fixed 0) 4%nat None 1%nat O 1%nat)
            (TimeoutWaiting 1) _).
  reflexivity.
Defined.

(** X8: permanent shortage. On a bucket that does not refill
    ([refillRate = 0]) and holds fewer than [cost] tokens, [acquire] fails at
    once with the permanent-shortage error, for every [timeoutMs] and before
    any pass of the loop; the attempt is not counted as a request and takes
    no token. *)
Theorem acquire_permanent_shortage (fuel : nat) (cost : Q)
    (timeoutMs : option Q) (b : TokenBucket.t) :
  TokenBucket.refillRate b == 0 ->
  TokenBucket.tokens b <= TokenBucket.capacity b ->
  TokenBucket.tokens b < cost ->
  fst (Acquire.acquire fuel cost timeoutMs b) = Some (Throw CannotAcquire) /\
  TokenBucket.getMetrics (snd (Acquire.acquire fuel cost timeoutMs b))
  = TokenBucket.getMetrics b /\
  TokenBucket.tokens (snd (Acquire.acquire fuel cost timeoutMs b))
  == TokenBucket.tokens b.
Proof.
  intros Hz Hcap Hlt.
  rewrite acquire_unfold. cbv zeta.
  set (b0 := snd (TokenBucket.readTime b)).
  assert (Hle : Qle_bool (TokenBucket.refillRate b0) 0 = true).
  { apply Qle_bool_iff. subst b0. cbn. lra. }
  pose proof (refill_rate_zero b0 Hz Hcap) as Htk.
  change (TokenBucket.tokens b0) with (TokenBucket.tokens b) in Htk.
  assert (Hno : fst (TokenBucket.check cost b0) = false).
  { unfold TokenBucket.check. cbn [fst]. apply Qgeb_false. lra. }
  rewrite Hle, Hno. cbn [negb fst snd].
  split; [reflexivity |]. split; [| exact Htk].
  rewrite check_snd. apply (refill_same_metrics b0).
Qed.

Lemma acquire_permanent_shortage_witness :
  fst (Acquire.acquire 0 1 None
         (TokenBucket.mk 1 0 0 0 (Scenario.advancing 0 5000) O None O O O))
  = Some (Throw CannotAcquire).
Proof.
  refine (proj1 (acquire_permanent_shortage 0 1 None
                   (TokenBucket.mk 1 0 0 0 (Scenario.advancing 0 5000)
                      O None O O O) _ _ _)); cbn; lra.
Defined.



(** * Further properties of the store-backed bucket *)

Arguments RedisTokenBucket.REDIS_TOKEN_BUCKET_LUA : simpl never.

Section ScriptMore.
Import RedisTokenBucket.

(** The hash the script leaves under its key, expiry included. *)
Lemma script_hash (key : string) (args : ScriptArgs) (store : Store)
    (tk last : Q) :
  match fst (HMGET key store) with
  | None => (a_capacity args, Some (a_nowMs args))
  | Some t => (t, snd (HMGET key store))
  end = (tk, Some last) ->
  let '(tk1, last1) :=
    lua_refill (a_capacity args) (a_refillRate args) (a_nowMs args) tk last in
  let tk2 :=
    if Qgeb tk1 (a_cost args) && a_consume args then tk1 - a_cost args
    else tk1 in
  snd (REDIS_TOKEN_BUCKET_LUA key args store) !! key
  = Some (mkHash (Some tk2) (Some last1)
            (if Qgtb (a_ttlSeconds args) 0 then Some (a_ttlSeconds args)
             else match store !! key with
                  | Some h => h_expire h
                  | None => None
                  end)).
Proof.
  intros H. unfold REDIS_TOKEN_BUCKET_LUA, lua_refill. rewrite H.
  destruct (Qgtb (a_nowMs args - last) 0);
    [destruct (Qgtb (tk + (a_nowMs args - last) / 1000 * a_refillRate args)
                 (a_capacity args)) |];
    cbv zeta;
    match goal with |- context [Qgeb ?x (a_cost args)] =>
      destruct (Qgeb x (a_cost args)) end;
    destruct (a_consume args); cbn [andb];
    destruct (Qgtb (a_ttlSeconds args) 0); cbn [snd];
    unfold EXPIRE, HMSET; rewrite ?lookup_insert_eq; cbn;
    rewrite ?lookup_insert_eq; reflexivity.
Qed.

(** The script leaves every other key of the store alone, and the whole
    store when it fails. *)
Lemma script_frame (key : string) (args : ScriptArgs) (store : Store) :
  (forall k, k <> key ->
     snd (REDIS_TOKEN_BUCKET_LUA key args store) !! k = store !! k) /\
  (forall e, fst (REDIS_TOKEN_BUCKET_LUA key args store) = Throw e ->
     e = LuaError /\ snd (REDIS_TOKEN_BUCKET_LUA key args store) = store /\
     exists tk, HMGET key store = (Some tk, None)).
Proof.
  destruct (HMGET key store) as [otk olast] eqn:Hget.
  destruct otk as [tk |]; [destruct olast as [last |] |].
  - pose proof (script_run key args store tk last) as H.
    rewrite Hget in H. specialize (H eq_refl).
    destruct (lua_refill _ _ _ _ _) as [tk1 last1]. cbv zeta in H.
    destruct H as (store' & -> & _ & Hframe). cbn [fst snd].
    split; [exact Hframe | discriminate].
  - unfold REDIS_TOKEN_BUCKET_LUA. rewrite Hget. cbn [fst snd].
    split; [reflexivity |]. intros e [= <-]. repeat split. now exists tk.
  - pose proof (script_run key args store (a_capacity args) (a_nowMs args)) as H.
    rewrite Hget in H. specialize (H eq_refl).
    destruct (lua_refill _ _ _ _ _) as [tk1 last1]. cbv zeta in H.
    destruct H as (store' & -> & _ & Hframe). cbn [fst snd].
    split; [exact Hframe | discriminate].
Qed.

Lemma runScript_fst_snd (cost : Q) (consume returnState : bool) (b : t)
    (store : Store) :
  runScript cost consume returnState b store
  = (to_reply
       (fst (REDIS_TOKEN_BUCKET_LUA (key b)
               (mkArgs (capacity b) (refillRate b) cost (getTime b (ticks b))
                  consume returnState (default 0 (ttlSeconds b))) store)),
     snd (readTime b),
     snd (REDIS_TOKEN_BUCKET_LUA (key b)
            (mkArgs (capacity b) (refillRate b) cost (getTime b (ticks b))
               consume returnState (default 0 (ttlSeconds b))) store)).
Proof.
  unfold runScript, readTime, EVAL. cbn [key capacity refillRate ttlSeconds].
  destruct (REDIS_TOKEN_BUCKET_LUA _ _ _). reflexivity.
Qed.

Lemma allow_store (cost : Q) (b : t) (store : Store) :
  snd (allow cost b store)
  = snd (REDIS_TOKEN_BUCKET_LUA (key b)
           (mkArgs (capacity b) (refillRate b) cost (getTime b (ticks b))
              true (bool_decide (is_Some (onRateLimit b)))
              (default 0 (ttlSeconds b))) store).
Proof.
  unfold allow. rewrite runScript_fst_snd. cbn.
  destruct (REDIS_TOKEN_BUCKET_LUA _ _ _) as [[reply | e] store']; cbn.
  - destruct (Qeq_bool (integer_reply (r_allowed reply)) 1); [reflexivity |].
    destruct (onRateLimit b) as [hook |]; [| reflexivity].
    destruct (r_lastRefill reply); [| reflexivity].
    cbn [option_map]. destruct (hook _ _); reflexivity.
  - reflexivity.
Qed.

Lemma check_store (cost : Q) (b : t) (store : Store) :
  snd (check cost b store)
  = snd (REDIS_TOKEN_BUCKET_LUA (key b)
           (mkArgs (capacity b) (refillRate b) cost (getTime b (ticks b))
              false false (default 0 (ttlSeconds b))) store).
Proof.
  unfold check. rewrite runScript_fst_snd.
  destruct (REDIS_TOKEN_BUCKET_LUA _ _ _) as [[reply | e] store']; reflexivity.
Qed.

Lemma timeToRefill_store (cost : Q) (b : t) (store : Store) :
  snd (timeToRefill cost b store)
  = snd (REDIS_TOKEN_BUCKET_LUA (key b)
           (mkArgs (capacity b) (refillRate b) 0 (getTime b (ticks b))
              false false (default 0 (ttlSeconds b))) store).
Proof.
  unfold timeToRefill. rewrite runScript_fst_snd.
  destruct (REDIS_TOKEN_BUCKET_LUA _ _ _) as [[reply | e] store'];
    cbn [fst snd to_reply r_tokens]; [| reflexivity].
  destruct (Qgeb (integer_reply (r_tokens reply)) cost); reflexivity.
Qed.

End ScriptMore.

(** X10: isolation of keys in the store. Whatever a store-backed bucket
    does ([allow], [check], [timeToRefill], [reset]), the hashes under every
    key other than its own [prefix:key] stay as they are. *)
Theorem remote_touches_own_key_only
    (rb : RedisTokenBucket.t) (cost : Q)
    (store : gmap string RedisTokenBucket.Hash) (k : string) :
  k <> RedisTokenBucket.key rb ->
  snd (RedisTokenBucket.allow cost rb store) !! k = store !! k /\
  snd (RedisTokenBucket.check cost rb store) !! k = store !! k /\
  snd (RedisTokenBucket.timeToRefill cost rb store) !! k = store !! k /\
  RedisTokenBucket.reset rb store !! k = store !! k.
Proof.
  intros Hk.
  rewrite allow_store, check_store, timeToRefill_store.
  repeat split; try (apply script_frame; exact Hk).
  unfold RedisTokenBucket.reset, RedisTokenBucket.DEL.
  apply lookup_delete_ne. congruence.
Qed.

Lemma remote_touches_own_key_only_witness :
  snd (RedisTokenBucket.allow 4 Scenario.remote_10_5 Scenario.store_3_of_10)
  !! "tb:u2"%string
  = Scenario.store_3_of_10 !! "tb:u2"%string.
Proof.
  refine (proj1 (remote_touches_own_key_only Scenario.remote_10_5 4
                   Scenario.store_3_of_10 "tb:u2"%string _)).
  discriminate.
Defined.

Section RemoteMore.
Import RedisTokenBucket.

Lemma lua_refill_bounds (capacity refillRate nowMs tk last : Q) :
  0 <= refillRate -> 0 <= tk -> tk <= capacity ->
  let '(tk1, last1) := lua_refill capacity refillRate nowMs tk last in
  tk <= tk1 /\ tk1 <= capacity /\ last <= last1.
Proof.
  intros Hr H0 Hc. unfold lua_refill.
  destruct (Qgtb (nowMs - last) 0) eqn:E; [| repeat split; lra].
  apply Qgtb_true in E.
  assert (Hel : 0 <= (nowMs - last) / 1000).
  { apply Qlt_le_weak. apply div1000_pos. exact E. }
  pose proof (Qmult_le_0_compat _ _ Hel Hr) as Hadd.
  cbv zeta.
  destruct (Qgtb (tk + (nowMs - last) / 1000 * refillRate) capacity) eqn:E2.
  - repeat split; lra.
  - apply Qgtb_false in E2. repeat split; lra.
Qed.

(** The first run on a key that holds nothing, through [allow]. *)
Lemma allow_first_use (cost : Q) (b : t) (store : Store) :
  store !! key b = None ->
  cost <= capacity b ->
  fst (fst (allow cost b store)) = Ok true /\
  HMGET (key b) (snd (allow cost b store))
  = (Some (capacity b - cost), Some (getTime b (ticks b))).
Proof.
  intros Hnone Hcost.
  pose proof (script_first_use (key b)
                (mkArgs (capacity b) (refillRate b) cost (getTime b (ticks b))
                   true (bool_decide (is_Some (onRateLimit b)))
                   (default 0 (ttlSeconds b))) store Hnone) as H.
  cbn [a_capacity a_cost a_consume a_returnState a_nowMs] in H. cbv zeta in H.
  assert (Hall : Qgeb (capacity b) cost = true) by (apply Qgeb_true; exact Hcost).
  rewrite Hall in H. cbn [andb] in H. destruct H as (store' & Hrun & Hget).
  split.
  - unfold allow. rewrite runScript_fst_snd. cbn. rewrite Hrun. reflexivity.
  - rewrite allow_store, Hrun. exact Hget.
Qed.

End RemoteMore.

(** X11: [reset] starts the bucket over. After [reset], whatever the key held
    before (a drained bucket, a hash left incomplete by someone else), the
    next [allow(cost)] with [cost <= capacity] is granted and leaves
    [capacity - cost] tokens stamped with the time of that call. *)
Theorem remote_reset_then_allow
    (rb : RedisTokenBucket.t) (cost : Q)
    (store : gmap string RedisTokenBucket.Hash) :
  cost <= RedisTokenBucket.capacity rb ->
  let store1 := RedisTokenBucket.reset rb store in
  fst (fst (RedisTokenBucket.allow cost rb store1)) = Ok true /\
  RedisTokenBucket.HMGET (RedisTokenBucket.key rb)
    (snd (RedisTokenBucket.allow cost rb store1))
  = (Some (RedisTokenBucket.capacity rb - cost),
     Some (RedisTokenBucket.getTime rb (RedisTokenBucket.ticks rb))).
Proof.
  intros Hcost store1. apply allow_first_use; [| exact Hcost].
  subst store1. unfold RedisTokenBucket.reset, RedisTokenBucket.DEL.
  apply lookup_delete_eq.
Qed.

Lemma remote_reset_then_allow_witness :
  fst (fst (RedisTokenBucket.allow 10 Scenario.remote_10_5
              (RedisTokenBucket.reset Scenario.remote_10_5
                 Scenario.store_3_of_10)))
  = Ok true.
Proof.
  refine (proj1 (remote_reset_then_allow Scenario.remote_10_5 10
                   Scenario.store_3_of_10 _)).
  cbn. lra.
Defined.

(** X12: idle expiry. Every run of the script that does not fail leaves a
    hash under its key; when [ttlSeconds > 0] the key's expiry is set to
    [ttlSeconds], also on a denial and on a run that only looks
    ([consume = 0]); otherwise the expiry the key had is kept (none for a new
    key). *)
Theorem script_refreshes_expiry (key : string)
    (args : RedisTokenBucket.ScriptArgs)
    (store : gmap string RedisTokenBucket.Hash) :
  (forall tk, RedisTokenBucket.HMGET key store <> (Some tk, None)) ->
  exists h,
    snd (RedisTokenBucket.REDIS_TOKEN_BUCKET_LUA key args store) !! key = Some h /\
    RedisTokenBucket.h_expire h
    = if Qgtb (RedisTokenBucket.a_ttlSeconds args) 0
      then Some (RedisTokenBucket.a_ttlSeconds args)
      else match store !! key with
           | Some h0 => RedisTokenBucket.h_expire h0
           | None => None
           end.
Proof.
  intros Hwf.
  destruct (RedisTokenBucket.HMGET key store) as [otk olast] eqn:Hget.
  assert (Hread : exists tk last,
             match fst (RedisTokenBucket.HMGET key store) with
             | None => (RedisTokenBucket.a_capacity args,
                        Some (RedisTokenBucket.a_nowMs args))
             | Some t => (t, snd (RedisTokenBucket.HMGET key store))
             end = (tk, Some last)).
  { rewrite Hget. cbn [fst snd].
    destruct otk as [tk |]; [destruct olast as [last |] |].
    - now exists tk, last.
    - now elim (Hwf tk).
    - now eexists _, _. }
  destruct Hread as (tk & last & Hread).
  pose proof (script_hash key args store tk last Hread) as H.
  destruct (RedisTokenBucket.lua_refill _ _ _ _ _) as [tk1 last1].
  cbv zeta in H. eexists. split; [exact H | reflexivity].
Qed.

Lemma script_refreshes_expiry_witness :
  exists h,
    snd (RedisTokenBucket.REDIS_TOKEN_BUCKET_LUA "tb:u1"
           (RedisTokenBucket.mkArgs 10 5 20 1000 true false 300)
           Scenario.store_3_of_10) !! "tb:u1"%string = Some h /\
    RedisTokenBucket.h_expire h = Some 300.
Proof.
  refine (script_refreshes_expiry "tb:u1"
            (RedisTokenBucket.mkArgs 10 5 20 1000 true false 300)
            Scenario.store_3_of_10 _).
  intros tk. discriminate.
Defined.

(** X13: the bounds in the store. With [capacity > 0], [refillRate >= 0] and
    [cost >= 0], a run of the script on a key that is absent, or that holds
    both fields, [lastRefill] and [tokens] with [0 <= tokens <= capacity],
    succeeds and leaves [0 <= tokens <= capacity] under the key, with a
    [lastRefill] that is not earlier than the one it found. *)
Theorem script_keeps_bounds (key : string)
    (args : RedisTokenBucket.ScriptArgs)
    (store : gmap string RedisTokenBucket.Hash) :
  0 < RedisTokenBucket.a_capacity args ->
  0 <= RedisTokenBucket.a_refillRate args ->
  0 <= RedisTokenBucket.a_cost args ->
  (store !! key = None \/
   exists tk last,
     RedisTokenBucket.HMGET key store = (Some tk, Some last) /\
     0 <= tk /\ tk <= RedisTokenBucket.a_capacity args) ->
  exists reply tk' last',
    fst (RedisTokenBucket.REDIS_TOKEN_BUCKET_LUA key args store) = Ok reply /\
    RedisTokenBucket.HMGET key
      (snd (RedisTokenBucket.REDIS_TOKEN_BUCKET_LUA key args store))
    = (Some tk', Some last') /\
    0 <= tk' /\ tk' <= RedisTokenBucket.a_capacity args /\
    (forall last, snd (RedisTokenBucket.HMGET key store) = Some last ->
                  last <= last').
Proof.
  intros Hcap Hrate Hcost Hstate.
  assert (Hread : exists tk last,
             match fst (RedisTokenBucket.HMGET key store) with
             | None => (RedisTokenBucket.a_capacity args,
                        Some (RedisTokenBucket.a_nowMs args))
             | Some t => (t, snd (RedisTokenBucket.HMGET key store))
             end = (tk, Some last) /\
             0 <= tk /\ tk <= RedisTokenBucket.a_capacity args /\
             (forall l, snd (RedisTokenBucket.HMGET key store) = Some l ->
                        l = last)).
  { destruct Hstate as [Hnone | (tk & last & Hget & H0 & H1)].
    - unfold RedisTokenBucket.HMGET. rewrite Hnone. cbn [fst snd].
      eexists _, _. split; [reflexivity |]. repeat split; try lra. discriminate.
    - rewrite Hget. cbn [fst snd]. exists tk, last.
      repeat split; try assumption. now intros l [= <-]. }
  destruct Hread as (tk & last & Hread & H0 & H1 & Hlast).
  pose proof (script_run key args store tk last Hread) as Hrun.
  pose proof (lua_refill_bounds (RedisTokenBucket.a_capacity args)
                (RedisTokenBucket.a_refillRate args)
                (RedisTokenBucket.a_nowMs args) tk last Hrate H0 H1) as Hb.
  destruct (RedisTokenBucket.lua_refill _ _ _ _ _) as [tk1 last1].
  cbv zeta in Hrun. destruct Hrun as (store' & -> & Hget & _).
  destruct Hb as (Hge & Hle & Hmono). cbn [fst snd].
  eexists _, _, _. split; [reflexivity |]. split; [exact Hget |].
  destruct (Qgeb tk1 (RedisTokenBucket.a_cost args)) eqn:E.
  - apply Qgeb_true in E.
    destruct (RedisTokenBucket.a_consume args); cbn [andb];
      repeat split; try lra; intros l Hl; rewrite (Hlast l Hl); exact Hmono.
  - cbn [andb].
    repeat split; try lra; intros l Hl; rewrite (Hlast l Hl); exact Hmono.
Qed.

Lemma script_keeps_bounds_witness :
  exists reply tk' last',
    fst (RedisTokenBucket.REDIS_TOKEN_BUCKET_LUA "tb:u1"
           (RedisTokenBucket.mkArgs 10 5 4 1000 true false 0)
           Scenario.store_3_of_10) = Ok reply /\
    RedisTokenBucket.HMGET "tb:u1"
      (snd (RedisTokenBucket.REDIS_TOKEN_BUCKET_LUA "tb:u1"
              (RedisTokenBucket.mkArgs 10 5 4 1000 true false 0)
              Scenario.store_3_of_10))
    = (Some tk', Some last') /\
    0 <= tk' /\ tk' <= 10 /\
    (forall last,
        snd (RedisTokenBucket.HMGET "tb:u1" Scenario.store_3_of_10) = Some last ->
        last <= last').
Proof.
  refine (script_keeps_bounds "tb:u1"
            (RedisTokenBucket.mkArgs 10 5 4 1000 true false 0)
            Scenario.store_3_of_10 _ _ _ _); cbn; try lra.
  right. exists 3, 0. repeat split; lra.
Defined.

Section IntegerReplies.
Import RedisTokenBucket.

(** The integer part of a number that is not negative. *)
Lemma integer_reply_floor (x : Q) :
  0 <= x -> integer_reply x = inject_Z (Qfloor x).
Proof.
  intros Hx. unfold integer_reply. destruct x as [n d]. cbn [Qnum Qden Qfloor].
  f_equal. apply Z.quot_div_nonneg; [| reflexivity].
  unfold Qle in Hx. cbn in Hx. lia.
Qed.

Lemma integer_reply_bounds (x : Q) :
  0 <= x -> 0 <= integer_reply x /\ integer_reply x <= x /\ x < integer_reply x + 1.
Proof.
  intros Hx. rewrite (integer_reply_floor x Hx).
  split; [| split].
  - change 0 with (inject_Z 0). rewrite <- Zle_Qle.
    change 0%Z with (Qfloor 0). now apply Qfloor_resp_le.
  - apply Qfloor_le.
  - pose proof (Qlt_floor x) as H. rewrite inject_Z_plus in H. exact H.
Qed.

(** The waiting time depends on the value of the shortfall only. *)
Lemma wait_comp (a a' rate : Q) :
  a == a' ->
  Math_ceil (js_mul (js_div a rate) 1000)
  = Math_ceil (js_mul (js_div a' rate) 1000).
Proof.
  intros H. unfold js_div.
  assert (H1 : Qgtb a 0 = Qgtb a' 0) by (unfold Qgtb; now rewrite H).
  assert (H2 : Qgtb 0 a = Qgtb 0 a') by (unfold Qgtb; now rewrite H).
  destruct (Qeq_bool rate 0).
  - now rewrite H1, H2.
  - cbn [js_mul Math_ceil]. do 2 f_equal. apply Qceiling_comp. now rewrite H.
Qed.

End IntegerReplies.

(** X14: the store-backed wrapper sees whole tokens only. The store replies
    with the integer part of the tokens it holds, so on a key holding the
    state of an in-memory bucket with the same capacity and rate, and at the
    same clock value, [timeToRefill(cost)] answers what an in-memory bucket
    of that rate answers when it holds, after its refill, the integer part
    of those tokens and no more. That is the answer of the in-memory bucket
    itself when its tokens are a whole number. With 3.5 tokens held and a
    rate of 5, the wait for 4 tokens is 200 where the in-memory bucket
    answers 100. *)
Theorem remote_timeToRefill_whole_tokens
    (b : TokenBucket.t) (rb : RedisTokenBucket.t) (cost : Q)
    (store : gmap string RedisTokenBucket.Hash) (expire : option Q) :
  RedisTokenBucket.getTime rb (RedisTokenBucket.ticks rb)
  = TokenBucket.getTime b (TokenBucket.ticks b) ->
  RedisTokenBucket.capacity rb = TokenBucket.capacity b ->
  RedisTokenBucket.refillRate rb = TokenBucket.refillRate b ->
  store !! RedisTokenBucket.key rb
  = Some (RedisTokenBucket.mkHash (Some (TokenBucket.tokens b))
            (Some (TokenBucket.lastRefillTimestamp b)) expire) ->
  let held := TokenBucket.tokens (TokenBucket.refill b) in
  (forall b' : TokenBucket.t,
      TokenBucket.refillRate b' = TokenBucket.refillRate b ->
      TokenBucket.tokens (TokenBucket.refill b')
      == RedisTokenBucket.integer_reply held ->
      fst (fst (RedisTokenBucket.timeToRefill cost rb store))
      = Ok (fst (TokenBucket.timeToRefill cost b'))) /\
  (RedisTokenBucket.integer_reply held == held ->
   fst (fst (RedisTokenBucket.timeToRefill cost rb store))
   = Ok (fst (TokenBucket.timeToRefill cost b))) /\
  (fst (fst (RedisTokenBucket.timeToRefill 4 Scenario.remote_10_5_at_100
               Scenario.store_3_of_10)) = Ok (Finite 200) /\
   fst (TokenBucket.timeToRefill 4 Scenario.local_3_of_10_at_100) = Finite 100).
Proof.
  intros Hclock Hcap Hrate Hstore held.
  set (seen := RedisTokenBucket.integer_reply held).
  assert (Hremote :
            fst (fst (RedisTokenBucket.timeToRefill cost rb store))
            = Ok (if Qgeb seen cost then Finite 0
                  else Math_ceil
                         (js_mul (js_div (cost - seen) (TokenBucket.refillRate b))
                            1000))).
  { unfold RedisTokenBucket.timeToRefill. rewrite runScript_fst_snd.
    rewrite Hclock, Hcap, Hrate.
    pose proof (script_run (RedisTokenBucket.key rb)
                  (RedisTokenBucket.mkArgs (TokenBucket.capacity b)
                     (TokenBucket.refillRate b) 0
                     (TokenBucket.getTime b (TokenBucket.ticks b)) false false
                     (default 0 (RedisTokenBucket.ttlSeconds rb)))
                  store (TokenBucket.tokens b) (TokenBucket.lastRefillTimestamp b))
      as Hscript.
    unfold RedisTokenBucket.HMGET in Hscript at 1 2. rewrite Hstore in Hscript.
    specialize (Hscript eq_refl).
    cbn [RedisTokenBucket.a_capacity RedisTokenBucket.a_refillRate
         RedisTokenBucket.a_nowMs RedisTokenBucket.a_cost
         RedisTokenBucket.a_consume RedisTokenBucket.a_returnState] in Hscript.
    pose proof (refill_as_script b) as Hlocal.
    destruct (RedisTokenBucket.lua_refill _ _ _ _ _) as [tk1 last1].
    injection Hlocal as Htk _.
    cbv zeta in Hscript. rewrite andb_false_r in Hscript.
    destruct Hscript as (store' & -> & _).
    cbn [fst snd RedisTokenBucket.to_reply RedisTokenBucket.r_tokens].
    subst seen held. rewrite Htk.
    cbn [RedisTokenBucket.refillRate RedisTokenBucket.readTime snd].
    rewrite ?Hrate.
    destruct (Qgeb (RedisTokenBucket.integer_reply tk1) cost); reflexivity. }
  assert (Hsame : forall b' : TokenBucket.t,
             TokenBucket.refillRate b' = TokenBucket.refillRate b ->
             TokenBucket.tokens (TokenBucket.refill b') == seen ->
             fst (fst (RedisTokenBucket.timeToRefill cost rb store))
             = Ok (fst (TokenBucket.timeToRefill cost b'))).
  { intros b' Hrate' Htokens. rewrite Hremote. unfold TokenBucket.timeToRefill.
    assert (Hr : TokenBucket.refillRate (TokenBucket.refill b')
                 = TokenBucket.refillRate b')
      by apply (refill_frame b').
    rewrite Hr, Hrate'.
    assert (Hge : Qgeb (TokenBucket.tokens (TokenBucket.refill b')) cost
                  = Qgeb seen cost)
      by (unfold Qgeb; now rewrite Htokens).
    rewrite Hge. destruct (Qgeb seen cost); cbn [fst]; [reflexivity |].
    f_equal. apply wait_comp. now rewrite Htokens. }
  split; [exact Hsame |]. split.
  - intros Hwhole. apply Hsame; [reflexivity |]. fold held. now rewrite Hwhole.
  - split; vm_compute; reflexivity.
Qed.

Lemma remote_timeToRefill_whole_tokens_witness :
  fst (fst (RedisTokenBucket.timeToRefill 9 Scenario.remote_10_5
              Scenario.store_3_of_10))
  = Ok (fst (TokenBucket.timeToRefill 9 Scenario.local_3_of_10)).
Proof.
  refine (proj1 (proj2 (remote_timeToRefill_whole_tokens Scenario.local_3_of_10
                          Scenario.remote_10_5 9 Scenario.store_3_of_10 None
                          _ _ _ _)) _);
    reflexivity.
Defined.

(** X15: the counters of the store-backed bucket. [allow] always adds one to
    [totalRequests]. When the script ran, exactly one of [allowed] and
    [limited] goes up by one: [allowed] for a grant, [limited] for a denial,
    also when the hook then throws. When the script failed (the hash held
    [tokens] without [lastRefill]) neither does, the store is left as it was
    and the failure reaches the caller. *)
Theorem remote_allow_counts (rb : RedisTokenBucket.t) (cost : Q)
    (store : gmap string RedisTokenBucket.Hash) :
  let r := RedisTokenBucket.allow cost rb store in
  let rb' := snd (fst r) in
  RedisTokenBucket.totalRequests rb' = S (RedisTokenBucket.totalRequests rb) /\
  match fst (fst r) with
  | Ok true =>
      RedisTokenBucket.allowedRequests rb'
      = S (RedisTokenBucket.allowedRequests rb) /\
      RedisTokenBucket.limitedRequests rb' = RedisTokenBucket.limitedRequests rb
  | Ok false | Throw (HookFailure _) =>
      RedisTokenBucket.allowedRequests rb' = RedisTokenBucket.allowedRequests rb /\
      RedisTokenBucket.limitedRequests rb'
      = S (RedisTokenBucket.limitedRequests rb)
  | Throw _ =>
      RedisTokenBucket.allowedRequests rb' = RedisTokenBucket.allowedRequests rb /\
      RedisTokenBucket.limitedRequests rb' = RedisTokenBucket.limitedRequests rb /\
      snd r = store /\
      fst (fst r) = Throw LuaError /\
      exists tk,
        RedisTokenBucket.HMGET (RedisTokenBucket.key rb) store = (Some tk, None)
  end.
Proof.
  cbv zeta. unfold RedisTokenBucket.allow. rewrite runScript_fst_snd. cbn.
  pose proof (script_frame (RedisTokenBucket.key rb)
                (RedisTokenBucket.mkArgs (RedisTokenBucket.capacity rb)
                   (RedisTokenBucket.refillRate rb) cost
                   (RedisTokenBucket.getTime rb (RedisTokenBucket.ticks rb))
                   true
                   (bool_decide (is_Some (RedisTokenBucket.onRateLimit rb)))
                   (default 0 (RedisTokenBucket.ttlSeconds rb))) store)
    as [_ Hfail].
  destruct (RedisTokenBucket.REDIS_TOKEN_BUCKET_LUA _ _ _)
    as [[reply | e] store']; cbn in *.
  - match goal with
    | |- context [Qeq_bool ?x 1] => destruct (Qeq_bool x 1)
    end; cbn; [now repeat split |].
    destruct (RedisTokenBucket.onRateLimit rb) as [hook |]; cbn;
      [| now repeat split].
    destruct (RedisTokenBucket.r_lastRefill reply); cbn; [| now repeat split].
    destruct (hook _ _); cbn; now repeat split.
  - destruct (Hfail e eq_refl) as (-> & -> & Htk). now repeat split.
Qed.

(** * Further properties of the registry *)

Section RegistryGet.
Import TokenBucketManager.

(** The two ways [get] resolves a key. *)
Lemma get_cases (now : Q) (key : string) (m : t) (h : Heap) :
  let expired :=
    match buckets m !! key, ttlMs m with
    | Some e, Some ttl => Qgtb (now - lastAccess e) ttl
    | _, _ => false
    end in
  (exists e,
      buckets m !! key = Some e /\ expired = false /\
      get now key m h
      = (bucket e,
         set_buckets (<[key := mkEntry (bucket e) now]> (buckets m)) m, h))
  \/
  ((buckets m !! key = None \/ expired = true) /\
   get now key m h
   = (nextRef h,
      set_buckets (<[key := mkEntry (nextRef h) now]> (buckets m)) m,
      mkHeap (<[nextRef h := createBucket m (nextRef h) key]> (objects h))
        (S (nextRef h)))).
Proof.
  cbv zeta. unfold get.
  destruct (buckets m !! key) as [e |] eqn:Hk.
  - destruct (ttlMs m) as [ttl |].
    + destruct (Qgtb (now - lastAccess e) ttl).
      * right. split; [now right |].
        cbn [buckets set_buckets createBucket].
        rewrite lookup_delete_eq, insert_delete_eq. reflexivity.
      * left. exists e. rewrite Hk. now repeat split.
    + left. exists e. rewrite Hk. now repeat split.
  - right. split; [now left |].
    destruct (ttlMs m); rewrite Hk; reflexivity.
Qed.

(** In every case the key is bound to the bucket returned, stamped [now];
    nothing else changes in the registry, and the heap only grows. *)
Lemma get_shape (now : Q) (key : string) (m : t) (h : Heap) :
  let '(r, m', h') := get now key m h in
  m' = set_buckets (<[key := mkEntry r now]> (buckets m)) m /\
  ((h' = h /\ exists e, buckets m !! key = Some e /\ bucket e = r) \/
   (r = nextRef h /\
    h' = mkHeap (<[r := createBucket m r key]> (objects h)) (S r))).
Proof.
  destruct (get_cases now key m h) as [(e & Hk & _ & ->) | (_ & ->)].
  - split; [reflexivity |]. left. split; [reflexivity |]. now exists e.
  - split; [reflexivity |]. right. now split.
Qed.

(** A key whose entry cannot be discarded resolves to the bucket it has;
    the factory is not called and the heap is left alone. *)
Lemma get_live (now : Q) (key : string) (m : t) (h : Heap) (e : Entry) :
  buckets m !! key = Some e ->
  (forall ttl, ttlMs m = Some ttl -> now - lastAccess e <= ttl) ->
  get now key m h
  = (bucket e, set_buckets (<[key := mkEntry (bucket e) now]> (buckets m)) m, h).
Proof.
  intros Hk Httl.
  destruct (get_cases now key m h) as [(e' & He & _ & ->) | ([Hnone | Hexp] & _)].
  - rewrite Hk in He. injection He as <-. reflexivity.
  - rewrite Hk in Hnone. discriminate.
  - rewrite Hk in Hexp. destruct (ttlMs m) as [ttl |]; [| discriminate].
    apply Qgtb_true in Hexp. specialize (Httl ttl eq_refl). lra.
Qed.

Lemma get_well_formed (now : Q) (key : string) (m : t) (h : Heap) :
  Registry.well_formed m h ->
  let '(r, m', h') := get now key m h in
  Registry.well_formed m' h' /\ (r < nextRef h')%nat /\
  (nextRef h <= nextRef h')%nat /\
  (forall r0, (r0 < nextRef h)%nat -> deref r0 h' = deref r0 h).
Proof.
  intros [Halloc Hinj].
  pose proof (get_shape now key m h) as Hs.
  destruct (get now key m h) as [[r m'] h'].
  destruct Hs as (-> & Hh).
  assert (Hr : (r < nextRef h')%nat /\ (nextRef h <= nextRef h')%nat /\
               (forall k e, k <> key -> buckets m !! k = Some e -> bucket e <> r) /\
               (forall r0, (r0 < nextRef h)%nat -> deref r0 h' = deref r0 h)).
  { destruct Hh as [(-> & e & Hk & <-) | (-> & ->)].
    - split; [exact (Halloc key e Hk) |]. split; [lia |]. split; [| reflexivity].
      intros k e' Hne Hk' Heq. apply Hne. exact (Hinj k key e' e Hk' Hk Heq).
    - cbn [nextRef]. split; [lia |]. split; [lia |]. split.
      + intros k e' _ Hk' Heq. specialize (Halloc k e' Hk'). lia.
      + intros r0 Hr0. unfold deref. cbn [objects].
        apply lookup_total_insert_ne. lia. }
  destruct Hr as (Hlt & Hle & Hfresh & Hold).
  split; [| now repeat split].
  split.
  - intros k e. cbn [buckets set_buckets].
    destruct (decide (k = key)) as [-> | Hne].
    + rewrite lookup_insert_eq. intros [= <-]. exact Hlt.
    + rewrite lookup_insert_ne by congruence. intros Hk.
      specialize (Halloc k e Hk). lia.
  - intros k1 k2 e1 e2. cbn [buckets set_buckets].
    destruct (decide (k1 = key)) as [-> | Hne1];
      destruct (decide (k2 = key)) as [-> | Hne2]; try reflexivity.
    + rewrite lookup_insert_eq, lookup_insert_ne by congruence.
      intros [= <-] Hk2 Heq. cbn [bucket] in Heq.
      now elim (Hfresh k2 e2 Hne2 Hk2).
    + rewrite lookup_insert_ne, lookup_insert_eq by congruence.
      intros Hk1 [= <-] Heq. cbn [bucket] in Heq.
      now elim (Hfresh k1 e1 Hne1 Hk1).
    + rewrite !lookup_insert_ne by congruence. apply Hinj.
Qed.

End RegistryGet.

Section RegistryAllow.
Import TokenBucketManager.

Lemma deref_store_ne (r r' : nat) (b : TokenBucket.t) (h : Heap) :
  r' <> r -> deref r' (store r b h) = deref r' h.
Proof.
  intros Hne. unfold deref, store. cbn [objects].
  apply lookup_total_insert_ne. congruence.
Qed.

(** [allow] resolves the key and then works on that one bucket object. *)
Lemma allow_shape (now : Q) (key : string) (cost : Q) (m : t) (h : Heap) :
  let '(r, m1, h1) := get now key m h in
  let b0 := deref r h1 in
  let b1 := snd (TokenBucket.allow cost b0) in
  snd (fst (allow now key cost m h)) = m1 /\
  nextRef (snd (allow now key cost m h)) = nextRef h1 /\
  (forall r', r' <> r -> deref r' (snd (allow now key cost m h)) = deref r' h1) /\
  (deref r (snd (allow now key cost m h)) = b1 \/
   deref r (snd (allow now key cost m h)) = TokenBucket.refill b1) /\
  (fst (fst (allow now key cost m h)) = Ok true
   <-> fst (TokenBucket.allow cost b0) = Ok true).
Proof.
  unfold allow.
  destruct (get now key m h) as [[r m1] h1]. cbv zeta.
  destruct (TokenBucket.allow cost (deref r h1)) as [res b1]. cbn [fst snd].
  destruct res as [[|] | e]; cbn [negb].
  - cbn [fst snd]. repeat split; try reflexivity.
    + intros r' Hne. now apply deref_store_ne.
    + left. apply deref_store.
  - destruct (onRateLimit m1) as [hook |].
    + rewrite deref_store. unfold TokenBucket.getState.
      destruct (hook key _); cbn [fst snd nextRef store];
        (repeat split; try discriminate;
         [ intros r' Hne; now rewrite !deref_store_ne
         | right; apply deref_store ]).
    + cbn [fst snd]. repeat split; try discriminate.
      * intros r' Hne. now apply deref_store_ne.
      * left. apply deref_store.
  - cbn [fst snd]. repeat split; try discriminate.
    + intros r' Hne. now apply deref_store_ne.
    + left. apply deref_store.
Qed.

End RegistryAllow.

(** X17: identifiers that have their buckets are limited independently. Take
    a registry in which no two keys hold the same bucket object, and a key
    whose entry is there and cannot be discarded (no TTL, or
    [now - lastAccess <= ttlMs]), so that the factory is not called. Then
    [allow(key, cost)] works on the bucket of [key] only: the key stays bound
    to its bucket, every other key keeps its entry, the bucket that entry
    points to is exactly as it was, no object is created, and still no two
    keys hold the same bucket. *)
Theorem allow_isolates_keys (now : Q) (key : string) (cost : Q)
    (m : TokenBucketManager.t) (h : TokenBucketManager.Heap)
    (k : string) (e ek : TokenBucketManager.Entry) :
  Registry.refs_injective m ->
  TokenBucketManager.buckets m !! key = Some ek ->
  (forall ttl, TokenBucketManager.ttlMs m = Some ttl ->
               now - TokenBucketManager.lastAccess ek <= ttl) ->
  k <> key ->
  TokenBucketManager.buckets m !! k = Some e ->
  let r := TokenBucketManager.allow now key cost m h in
  TokenBucketManager.buckets (snd (fst r)) !! key
  = Some (TokenBucketManager.mkEntry (TokenBucketManager.bucket ek) now) /\
  TokenBucketManager.buckets (snd (fst r)) !! k = Some e /\
  TokenBucketManager.deref (TokenBucketManager.bucket e) (snd r)
  = TokenBucketManager.deref (TokenBucketManager.bucket e) h /\
  TokenBucketManager.nextRef (snd r) = TokenBucketManager.nextRef h /\
  Registry.refs_injective (snd (fst r)).
Proof.
  intros Hinj Hkey Hlive Hne Hk r. subst r.
  pose proof (allow_shape now key cost m h) as Ha.
  rewrite (get_live now key m h ek Hkey Hlive) in Ha.
  cbv zeta in Ha. destruct Ha as (-> & Hnext & Hframe & _).
  cbn [TokenBucketManager.buckets TokenBucketManager.set_buckets].
  assert (Hre : TokenBucketManager.bucket e <> TokenBucketManager.bucket ek).
  { intros Heq. apply Hne. exact (Hinj k key e ek Hk Hkey Heq). }
  split; [apply lookup_insert_eq |].
  split; [rewrite lookup_insert_ne by congruence; exact Hk |].
  split; [exact (Hframe _ Hre) |]. split; [exact Hnext |].
  intros k1 k2 e1 e2.
  cbn [TokenBucketManager.buckets TokenBucketManager.set_buckets].
  destruct (decide (k1 = key)) as [-> | Hne1];
    destruct (decide (k2 = key)) as [-> | Hne2]; try reflexivity.
  - rewrite lookup_insert_eq, lookup_insert_ne by congruence.
    intros [= <-] Hk2 Heq. cbn [TokenBucketManager.bucket] in Heq.
    exact (Hinj key k2 ek e2 Hkey Hk2 Heq).
  - rewrite lookup_insert_ne, lookup_insert_eq by congruence.
    intros Hk1 [= <-] Heq. cbn [TokenBucketManager.bucket] in Heq.
    exact (Hinj k1 key e1 ek Hk1 Hkey Heq).
  - rewrite !lookup_insert_ne by congruence. apply Hinj.
Qed.

Lemma registry_ab_well_formed :
  Registry.well_formed Registry.registry_ab Registry.heap_ab.
Proof.
  split.
  - intros k e Hk. cbn in Hk.
    apply lookup_insert_Some in Hk as [[_ <-] | [_ Hk]]; [cbn; lia |].
    apply lookup_insert_Some in Hk as [[_ <-] | [_ Hk]]; [cbn; lia |].
    now rewrite lookup_empty in Hk.
  - intros k1 k2 e1 e2 H1 H2 Heq. cbn in H1, H2.
    apply lookup_insert_Some in H1 as [[<- <-] | [_ H1]];
      apply lookup_insert_Some in H2 as [[<- <-] | [_ H2]];
      try reflexivity;
      try (apply lookup_insert_Some in H1 as [[<- <-] | [_ H1]]);
      try (apply lookup_insert_Some in H2 as [[<- <-] | [_ H2]]);
      try reflexivity; try discriminate;
      rewrite ?lookup_empty in *; try discriminate.
Qed.

Lemma allow_isolates_keys_witness :
  TokenBucketManager.deref 0%nat
    (snd (TokenBucketManager.allow 5 "b" 4 Registry.registry_ab Registry.heap_ab))
  = TokenBucketManager.deref 0%nat Registry.heap_ab.
Proof.
  refine (proj1 (proj2 (proj2 (allow_isolates_keys 5 "b"%string 4
                                 Registry.registry_ab Registry.heap_ab
                                 "a"%string
                                 (TokenBucketManager.mkEntry 0%nat 0)
                                 (TokenBucketManager.mkEntry 1%nat 0)
                                 (proj2 registry_ab_well_formed) _ _ _ _)))).
  - reflexivity.
  - intros ttl Httl. injection Httl as <-. unfold Qle. cbn. lia.
  - discriminate.
  - reflexivity.
Defined.

Section RegistryCleanup.
Import TokenBucketManager.

Lemma cleanup_frame (now : Q) (m : t) :
  createBucket (cleanup now m) = createBucket m /\
  ttlMs (cleanup now m) = ttlMs m /\
  onRateLimit (cleanup now m) = onRateLimit m.
Proof. unfold cleanup. destruct (ttlMs m) eqn:E; cbn; now rewrite ?E. Qed.

Lemma cleanup_subset (now : Q) (m : t) (k : string) (e : Entry) :
  buckets (cleanup now m) !! k = Some e -> buckets m !! k = Some e.
Proof.
  destruct (ttlMs m) as [ttl |] eqn:Httl.
  - intros H. now apply (cleanup_lookup now ttl m k e Httl) in H.
  - unfold cleanup. now rewrite Httl.
Qed.

Lemma cleanup_idempotent (now : Q) (m : t) :
  cleanup now (cleanup now m) = cleanup now m.
Proof.
  destruct (ttlMs m) as [ttl |] eqn:Httl.
  - assert (Httl' : ttlMs (cleanup now m) = Some ttl).
    { destruct (cleanup_frame now m) as (_ & -> & _). exact Httl. }
    assert (E : buckets (cleanup now (cleanup now m)) = buckets (cleanup now m)).
    { apply map_eq. intros k. apply option_eq. intros e.
      rewrite (cleanup_lookup now ttl (cleanup now m) k e Httl').
      rewrite (cleanup_lookup now ttl m k e Httl). tauto. }
    assert (Hset : forall m0, ttlMs m0 = Some ttl ->
               cleanup now m0 = set_buckets (buckets (cleanup now m0)) m0).
    { intros m0 H0. unfold cleanup. rewrite H0. reflexivity. }
    rewrite (Hset _ Httl'), E. pose proof (Hset m Httl) as Hm.
    set (B := buckets (cleanup now m)) in *. rewrite Hm. reflexivity.
  - unfold cleanup. rewrite Httl. cbn. now rewrite Httl.
Qed.

End RegistryCleanup.

(** X18: [cleanup] only removes. It never adds or alters an entry, never
    touches a bucket, keeps the registry well formed, does nothing at all
    when no TTL is configured, and a second sweep at the same time changes
    nothing more. *)
Theorem cleanup_only_removes (now : Q) (m : TokenBucketManager.t)
    (h : TokenBucketManager.Heap) :
  Registry.well_formed m h ->
  Registry.well_formed (TokenBucketManager.cleanup now m) h /\
  (forall k e,
      TokenBucketManager.buckets (TokenBucketManager.cleanup now m) !! k = Some e ->
      TokenBucketManager.buckets m !! k = Some e) /\
  TokenBucketManager.cleanup now (TokenBucketManager.cleanup now m)
  = TokenBucketManager.cleanup now m /\
  (TokenBucketManager.ttlMs m = None -> TokenBucketManager.cleanup now m = m).
Proof.
  intros [Halloc Hinj]. split; [| split; [| split]].
  - split.
    + intros k e Hk. apply (Halloc k e). now apply cleanup_subset in Hk.
    + intros k1 k2 e1 e2 H1 H2. apply (Hinj k1 k2 e1 e2).
      * now apply cleanup_subset in H1.
      * now apply cleanup_subset in H2.
  - intros k e. apply cleanup_subset.
  - apply cleanup_idempotent.
  - intros Httl. unfold TokenBucketManager.cleanup. now rewrite Httl.
Qed.

Lemma cleanup_only_removes_witness :
  TokenBucketManager.cleanup 1500
    (TokenBucketManager.cleanup 1500 Registry.registry_ab)
  = TokenBucketManager.cleanup 1500 Registry.registry_ab.
Proof.
  exact (proj1 (proj2 (proj2 (cleanup_only_removes 1500 Registry.registry_ab
                                Registry.heap_ab registry_ab_well_formed)))).
Defined.

(** X19: eviction is the same lazily or eagerly. Resolving a key right after
    a [cleanup] made at the same time returns the same bucket, and leaves
    the same heap, as resolving it without the sweep. *)
Theorem get_after_cleanup (now : Q) (key : string) (m : TokenBucketManager.t)
    (h : TokenBucketManager.Heap) :
  fst (fst (TokenBucketManager.get now key (TokenBucketManager.cleanup now m) h))
  = fst (fst (TokenBucketManager.get now key m h)) /\
  snd (TokenBucketManager.get now key (TokenBucketManager.cleanup now m) h)
  = snd (TokenBucketManager.get now key m h).
Proof.
  destruct (TokenBucketManager.ttlMs m) as [ttl |] eqn:Httl.
  2: { unfold TokenBucketManager.cleanup. rewrite Httl. now split. }
  destruct (cleanup_frame now m) as (Hf & Ht & _).
  pose proof (get_cases now key m h) as Hm.
  pose proof (get_cases now key (TokenBucketManager.cleanup now m) h) as Hc.
  cbv zeta in Hm, Hc. rewrite Ht, Hf in Hc. rewrite Httl in Hm, Hc.
  destruct (TokenBucketManager.buckets m !! key) as [e |] eqn:Hk.
  - destruct (Qgtb (now - TokenBucketManager.lastAccess e) ttl) eqn:Hexp.
    + assert (Hgone : TokenBucketManager.buckets
                        (TokenBucketManager.cleanup now m) !! key = None).
      { destruct (TokenBucketManager.buckets
                    (TokenBucketManager.cleanup now m) !! key) as [e' |] eqn:E;
          [| reflexivity].
        pose proof (proj1 (cleanup_lookup now ttl m key e' Httl) E) as [He Hle].
        rewrite Hk in He. injection He as <-. apply Qgtb_true in Hexp. lra. }
      rewrite Hgone in Hc.
      destruct Hm as [(e0 & _ & [=] & _) | (_ & ->)].
      destruct Hc as [(e0 & [=] & _) | (_ & ->)]. now split.
    + assert (Hkept : TokenBucketManager.buckets
                        (TokenBucketManager.cleanup now m) !! key = Some e).
      { apply (cleanup_lookup now ttl m key e Httl).
        split; [exact Hk | now apply Qgtb_false]. }
      rewrite Hkept, Hexp in Hc.
      destruct Hm as [(e0 & [= <-] & _ & ->) | ([[=] | [=]] & _)].
      destruct Hc as [(e0 & [= <-] & _ & ->) | ([[=] | [=]] & _)]. now split.
  - assert (Hgone : TokenBucketManager.buckets
                      (TokenBucketManager.cleanup now m) !! key = None).
    { destruct (TokenBucketManager.buckets
                  (TokenBucketManager.cleanup now m) !! key) as [e' |] eqn:E;
        [| reflexivity].
      pose proof (proj1 (cleanup_lookup now ttl m key e' Httl) E) as [He _].
      rewrite Hk in He. discriminate. }
    rewrite Hgone in Hc.
    destruct Hm as [(e0 & [=] & _) | (_ & ->)].
    destruct Hc as [(e0 & [=] & _) | (_ & ->)]. now split.
Qed.

(** X20: the registry charges one bucket, once. [allow(key, cost)] answers
    true exactly when the bucket resolved for [key] grants the request; that
    bucket counts one more request, granted or limited accordingly, and the
    [getState] made for the registry-level hook counts nothing more. *)
Theorem manager_allow_charges_once (now : Q) (key : string) (cost : Q)
    (m : TokenBucketManager.t) (h : TokenBucketManager.Heap) :
  let '(r, _, h1) := TokenBucketManager.get now key m h in
  let b0 := TokenBucketManager.deref r h1 in
  let result := TokenBucketManager.allow now key cost m h in
  let bf := TokenBucketManager.deref r (snd result) in
  (fst (fst result) = Ok true <-> fst (TokenBucket.allow cost b0) = Ok true) /\
  TokenBucket.totalRequests bf = S (TokenBucket.totalRequests b0) /\
  (fst (fst result) = Ok true ->
   TokenBucket.allowedRequests bf = S (TokenBucket.allowedRequests b0) /\
   TokenBucket.limitedRequests bf = TokenBucket.limitedRequests b0) /\
  (fst (fst result) <> Ok true ->
   TokenBucket.allowedRequests bf = TokenBucket.allowedRequests b0 /\
   TokenBucket.limitedRequests bf = S (TokenBucket.limitedRequests b0)).
Proof.
  pose proof (allow_shape now key cost m h) as Ha.
  destruct (TokenBucketManager.get now key m h) as [[r m1] h1].
  cbv zeta in *. destruct Ha as (_ & _ & _ & Hbf & Hiff).
  set (b0 := TokenBucketManager.deref r h1) in *.
  assert (Hcounters :
            TokenBucket.getMetrics
              (TokenBucketManager.deref r
                 (snd (TokenBucketManager.allow now key cost m h)))
            = TokenBucket.getMetrics (snd (TokenBucket.allow cost b0))).
  { destruct Hbf as [-> | ->]; [reflexivity |]. apply refill_same_metrics. }
  unfold TokenBucket.getMetrics in Hcounters.
  injection Hcounters as -> -> ->.
  split; [exact Hiff |]. rewrite Hiff.
  pose proof (refill_frame (TokenBucket.incr_totalRequests b0))
    as (_ & _ & _ & _ & _ & Ht & Ha & Hl).
  pose proof (refill_frame
                (TokenBucket.incr_limitedRequests
                   (TokenBucket.refill (TokenBucket.incr_totalRequests b0))))
    as (_ & _ & _ & _ & _ & Ht' & Ha' & Hl').
  destruct (allow_outcomes cost b0) as [(_ & Hres & ->) | (_ & Hres & [-> | ->])];
    bucket_fields; rewrite ?Ht', ?Ha', ?Hl'; bucket_fields;
    rewrite ?Ht, ?Ha, ?Hl; bucket_fields.
  - split; [reflexivity |]. split; [now split | intros Hn; now elim Hn].
  - split; [reflexivity |]. split; [intros Hy; now elim Hres | now split].
  - split; [reflexivity |]. split; [intros Hy; now elim Hres | now split].
Qed.

(** * Properties of the Express middleware *)

Section Middleware.
Import TokenBucketManager.

(** A key used a moment ago resolves to the same bucket object: the state
    query only refills it and stamps the entry again. *)
Lemma getState_same_bucket (now : Q) (key : string) (r : nat) (stamp : Q)
    (m : t) (h : Heap) :
  buckets m !! key = Some (mkEntry r stamp) ->
  (forall ttl, ttlMs m = Some ttl -> now - stamp <= ttl) ->
  getState now key m h
  = (fst (TokenBucket.getState (deref r h)),
     set_buckets (<[key := mkEntry r now]> (buckets m)) m,
     store r (TokenBucket.refill (deref r h)) h).
Proof.
  intros Hk Httl. unfold getState.
  destruct (get_cases now key m h) as [(e & He & _ & ->) | ([Hnone | Hexp] & _)].
  - rewrite Hk in He. injection He as <-. reflexivity.
  - rewrite Hk in Hnone. discriminate.
  - rewrite Hk in Hexp. destruct (ttlMs m) as [ttl |]; [| discriminate].
    cbn [lastAccess] in Hexp. apply Qgtb_true in Hexp.
    specialize (Httl ttl eq_refl). lra.
Qed.

Lemma allow_total (now : Q) (key : string) (cost : Q) (m : t) (h : Heap) :
  let '(r, _, h1) := get now key m h in
  TokenBucket.totalRequests (deref r (snd (allow now key cost m h)))
  = S (TokenBucket.totalRequests (deref r h1)).
Proof.
  pose proof (allow_shape now key cost m h) as Ha.
  destruct (get now key m h) as [[r m1] h1].
  cbv zeta in Ha. destruct Ha as (_ & _ & _ & Hbf & _).
  pose proof (allow_counts cost (deref r h1)) as [Ht _]. cbv zeta in Ht.
  destruct Hbf as [-> | ->]; [exact Ht |].
  destruct (refill_frame (snd (TokenBucket.allow cost (deref r h1))))
    as (_ & _ & _ & _ & _ & -> & _). exact Ht.
Qed.

End Middleware.


(** X22: one request charges one bucket, once. If the entry cannot expire
    between the two clock readings of the middleware, then the state query
    made after the decision resolves to the bucket that took the decision:
    whatever the outcome, that bucket has counted exactly one more request,
    no second bucket has been created, every other bucket object is
    untouched, and the key stays bound to that bucket. *)
Theorem middleware_charges_once (l : Express.Limiter) (now1 now2 : Q)
    (req : Express.Request) (res : Express.Response)
    (m : TokenBucketManager.t) (h : TokenBucketManager.Heap) :
  (forall ttl, TokenBucketManager.ttlMs m = Some ttl -> now2 - now1 <= ttl) ->
  let key := Express.keyResolver l req in
  let '(r, _, h1) := TokenBucketManager.get now1 key m h in
  let out := Express.handle l now1 now2 req res m h in
  TokenBucket.totalRequests (TokenBucketManager.deref r (snd out))
  = S (TokenBucket.totalRequests (TokenBucketManager.deref r h1)) /\
  TokenBucketManager.nextRef (snd out) = TokenBucketManager.nextRef h1 /\
  (forall r', r' <> r ->
              TokenBucketManager.deref r' (snd out)
              = TokenBucketManager.deref r' h1) /\
  exists stamp,
    TokenBucketManager.buckets (snd (fst out)) !! key
    = Some (TokenBucketManager.mkEntry r stamp).
Proof.
  intros Httl. cbv zeta.
  set (key := Express.keyResolver l req).
  pose proof (allow_shape now1 key (Express.cost l) m h) as Ha.
  pose proof (allow_total now1 key (Express.cost l) m h) as Ht.
  pose proof (get_shape now1 key m h) as Hg.
  destruct (TokenBucketManager.get now1 key m h) as [[r m1] h1].
  cbv zeta in Ha. destruct Ha as (Hm & Hn & Hother & _ & _).
  destruct Hg as (Hm1 & _).
  assert (Hk : TokenBucketManager.buckets m1 !! key
               = Some (TokenBucketManager.mkEntry r now1)).
  { rewrite Hm1. cbn [TokenBucketManager.buckets TokenBucketManager.set_buckets].
    apply lookup_insert_eq. }
  assert (Httl1 : forall ttl, TokenBucketManager.ttlMs m1 = Some ttl ->
                              now2 - now1 <= ttl).
  { rewrite Hm1. exact Httl. }
  unfold Express.handle. fold key.
  destruct (TokenBucketManager.allow now1 key (Express.cost l) m h)
    as [[[allowed | e] ma] ha]; cbn [fst snd] in *; subst ma.
  - rewrite (getState_same_bucket now2 key r now1 m1 ha Hk Httl1).
    assert (Hout :
              forall (x : Result (list Express.Effect)),
                TokenBucket.totalRequests
                  (TokenBucketManager.deref r
                     (TokenBucketManager.store r
                        (TokenBucket.refill (TokenBucketManager.deref r ha)) ha))
                = S (TokenBucket.totalRequests (TokenBucketManager.deref r h1)) /\
                TokenBucketManager.nextRef
                  (TokenBucketManager.store r
                     (TokenBucket.refill (TokenBucketManager.deref r ha)) ha)
                = TokenBucketManager.nextRef h1 /\
                (forall r', r' <> r ->
                            TokenBucketManager.deref r'
                              (TokenBucketManager.store r
                                 (TokenBucket.refill
                                    (TokenBucketManager.deref r ha)) ha)
                            = TokenBucketManager.deref r' h1) /\
                exists stamp,
                  TokenBucketManager.buckets
                    (TokenBucketManager.set_buckets
                       (<[key := TokenBucketManager.mkEntry r now2]>
                          (TokenBucketManager.buckets m1)) m1) !! key
                  = Some (TokenBucketManager.mkEntry r stamp)).
    { intros _. split.
      - rewrite deref_store.
        destruct (refill_frame (TokenBucketManager.deref r ha))
          as (_ & _ & _ & _ & _ & -> & _). exact Ht.
      - split; [exact Hn |]. split.
        + intros r' Hne. rewrite deref_store_ne by exact Hne. now apply Hother.
        + exists now2.
          cbn [TokenBucketManager.buckets TokenBucketManager.set_buckets].
          apply lookup_insert_eq. }
    destruct allowed; [| destruct (Express.onReject l)]; cbn [fst snd];
      apply Hout; exact (Ok []).
  - split; [exact Ht |]. split; [exact Hn |]. split; [exact Hother |].
    now exists now1.
Qed.

Lemma middleware_charges_once_witness :
  let out :=
    Express.handle
      (fst (Express.createExpressRateLimiter (fun _ => Scenario.fixed 0)
              (Express.mkOptions None None (Some Registry.registry_ab) None None
                 false None)))
      5 6 (Express.mkRequest (Some "a"%string))
      (Express.mkResponse true true true true)
      Registry.registry_ab Registry.heap_ab in
  TokenBucket.totalRequests (TokenBucketManager.deref 0%nat (snd out)) = 1%nat.
Proof.
  refine (proj1 (middleware_charges_once
                   (fst (Express.createExpressRateLimiter
                           (fun _ => Scenario.fixed 0)
                           (Express.mkOptions None None
                              (Some Registry.registry_ab) None None false None)))
                   5 6 (Express.mkRequest (Some "a"%string))
                   (Express.mkResponse true true true true)
                   Registry.registry_ab Registry.heap_ab _)).
  intros ttl Httl. injection Httl as <-. unfold Qle. cbn. lia.
Defined.

Section RemoteSnapshot.

(** Rounding to four decimals leaves a whole number as it is. *)
Lemma toFixed4_integer (z : Z) : toFixed4 (inject_Z z) == inject_Z z.
Proof.
  unfold toFixed4.
  assert (Hn : Qfloor (Qabs (inject_Z z) * 10000 + (1 # 2)) = (Z.abs z * 10000)%Z).
  { unfold Qfloor, Qabs, inject_Z, Qmult, Qplus. cbn [Qnum Qden].
    change (Z.pos (1 * 1 * 2)) with 2%Z.
    replace (Z.abs z * 10000 * 2 + 1 * Z.pos (1 * 1))%Z
      with (1 + Z.abs z * 10000 * 2)%Z by lia.
    rewrite Z.div_add by lia. reflexivity. }
  rewrite Hn.
  destruct (Qgtb 0 (inject_Z z)) eqn:E.
  - apply Qgtb_true in E. change 0 with (inject_Z 0) in E.
    rewrite <- Zlt_Qlt in E.
    replace (- (Z.abs z * 10000))%Z with (z * 10000)%Z by lia.
    rewrite inject_Z_mult. change (inject_Z 10000) with 10000. field.
  - apply Qgtb_false in E. change 0 with (inject_Z 0) in E.
    rewrite <- Zle_Qle in E.
    replace (Z.abs z * 10000)%Z with (z * 10000)%Z by lia.
    rewrite inject_Z_mult. change (inject_Z 10000) with 10000. field.
Qed.

End RemoteSnapshot.

(** X23: the snapshot of the store-backed bucket shows whole tokens. On a key
    holding the state of an in-memory bucket with the same capacity and rate,
    and at the same clock value, [getState] stores the refilled state under
    the key, as the in-memory bucket keeps it, leaves the other keys alone
    and counts no request; the snapshot it returns carries the wrapper's
    capacity and rate, a [lastRefill] that is never missing, and for
    [tokens] and [lastRefill] the integer part of what the store holds: when
    the tokens held are not negative, at most that many and less than one
    token short. *)
Theorem remote_getState_whole_tokens
    (b : TokenBucket.t) (rb : RedisTokenBucket.t)
    (store : gmap string RedisTokenBucket.Hash) (expire : option Q) :
  RedisTokenBucket.getTime rb (RedisTokenBucket.ticks rb)
  = TokenBucket.getTime b (TokenBucket.ticks b) ->
  RedisTokenBucket.capacity rb = TokenBucket.capacity b ->
  RedisTokenBucket.refillRate rb = TokenBucket.refillRate b ->
  store !! RedisTokenBucket.key rb
  = Some (RedisTokenBucket.mkHash (Some (TokenBucket.tokens b))
            (Some (TokenBucket.lastRefillTimestamp b)) expire) ->
  let local := TokenBucket.getState b in
  let remote := RedisTokenBucket.getState rb store in
  let held := TokenBucket.tokens (snd local) in
  (exists s,
      fst (fst remote) = Ok s /\
      RedisTokenBucket.rs_tokens s == RedisTokenBucket.integer_reply held /\
      RedisTokenBucket.rs_capacity s = TokenBucket.capacity b /\
      RedisTokenBucket.rs_refillRate s = TokenBucket.refillRate b /\
      RedisTokenBucket.rs_lastRefill s
      = Some (RedisTokenBucket.integer_reply
                (TokenBucket.lastRefillTimestamp (snd local))) /\
      (0 <= held ->
       RedisTokenBucket.rs_tokens s <= held /\
       held < RedisTokenBucket.rs_tokens s + 1)) /\
  RedisTokenBucket.HMGET (RedisTokenBucket.key rb) (snd remote)
  = (Some held, Some (TokenBucket.lastRefillTimestamp (snd local))) /\
  (forall k, k <> RedisTokenBucket.key rb -> snd remote !! k = store !! k) /\
  RedisTokenBucket.getMetrics (snd (fst remote)) = RedisTokenBucket.getMetrics rb.
Proof.
  intros Hclock Hcap Hrate Hstore. cbv zeta.
  unfold RedisTokenBucket.getState. rewrite runScript_fst_snd.
  rewrite Hclock, Hcap, Hrate.
  pose proof (script_run (RedisTokenBucket.key rb)
                (RedisTokenBucket.mkArgs (TokenBucket.capacity b)
                   (TokenBucket.refillRate b) 0
                   (TokenBucket.getTime b (TokenBucket.ticks b)) false true
                   (default 0 (RedisTokenBucket.ttlSeconds rb)))
                store (TokenBucket.tokens b) (TokenBucket.lastRefillTimestamp b))
    as Hscript.
  unfold RedisTokenBucket.HMGET in Hscript at 1 2. rewrite Hstore in Hscript.
  specialize (Hscript eq_refl).
  cbn [RedisTokenBucket.a_capacity RedisTokenBucket.a_refillRate
       RedisTokenBucket.a_nowMs RedisTokenBucket.a_cost
       RedisTokenBucket.a_consume RedisTokenBucket.a_returnState] in Hscript.
  pose proof (refill_as_script b) as Hlocal.
  destruct (RedisTokenBucket.lua_refill _ _ _ _ _) as [tk1 last1].
  injection Hlocal as Htk Hlast.
  cbv zeta in Hscript. rewrite andb_false_r in Hscript.
  destruct Hscript as (store' & -> & Hhash & Hothers).
  cbn [fst snd RedisTokenBucket.to_reply RedisTokenBucket.r_tokens
       RedisTokenBucket.r_lastRefill option_map].
  unfold TokenBucket.getState. cbn [fst snd].
  rewrite Htk, Hlast.
  cbn [RedisTokenBucket.refillRate RedisTokenBucket.capacity
       RedisTokenBucket.readTime snd].
  rewrite ?Hcap, ?Hrate.
  assert (Hshown : toFixed4 (RedisTokenBucket.integer_reply tk1)
                   == RedisTokenBucket.integer_reply tk1)
    by apply toFixed4_integer.
  split; [| split; [exact Hhash | split; [exact Hothers | reflexivity]]].
  eexists. split; [reflexivity |].
  cbn [RedisTokenBucket.rs_tokens RedisTokenBucket.rs_capacity
       RedisTokenBucket.rs_refillRate RedisTokenBucket.rs_lastRefill].
  split; [exact Hshown |]. split; [reflexivity |]. split; [reflexivity |].
  split; [reflexivity |].
  intros Hheld. rewrite Hshown.
  destruct (integer_reply_bounds tk1 Hheld) as (_ & Hle & Hlt). now split.
Qed.

Lemma remote_getState_whole_tokens_witness :
  RedisTokenBucket.HMGET "tb:u1"
    (snd (RedisTokenBucket.getState Scenario.remote_10_5_at_100
            Scenario.store_3_of_10))
  = (Some (TokenBucket.tokens
             (snd (TokenBucket.getState Scenario.local_3_of_10_at_100))),
     Some (TokenBucket.lastRefillTimestamp
             (snd (TokenBucket.getState Scenario.local_3_of_10_at_100)))).
Proof.
  refine (proj1 (proj2 (remote_getState_whole_tokens Scenario.local_3_of_10_at_100
                          Scenario.remote_10_5_at_100 Scenario.store_3_of_10 None
                          _ _ _ _)));
    reflexivity.
Defined.
